(** * iq.js: an iterable querying library

    A shallow embedding of [iq.js] (rule factory, [Query] builder and
    [QueryExecutor]) together with the properties of its specification.

    Modelling decisions, shared by the whole development:

    - JavaScript values are a small tagged union ([Value]); plain objects
      live in a heap and are designated by references, so that identity and
      sharing can be observed.  A record of the heap is a plain object: its
      own properties are data properties and its prototype is the host's
      [Object.prototype], whose properties it inherits ([inherited]); the
      functions and objects of the host are opaque values ([VHost]).  Of
      strings and arrays the length and the elements can be read; the
      methods that numbers, booleans, strings and arrays inherit from the
      host are not modelled, and no statement reads one.  Strings are made
      of one-byte characters.  Arrays are immutable lists of values.
    - Numbers are mathematical integers ([Z]); counters never reach the range
      where JavaScript doubles lose precision.
    - A generator object is a value of type [Gen]: its only method, [next],
      takes the current world and answers done, throw or yield together with
      the generator to resume.  Generators are finite (the type is inductive).
      The [return] call that a [break] issues on the upstream iterator is not
      modelled: no rule of the library has a [finally] block.  A value of
      type [Gen] is a generator object in a given state: a run consumes it
      once, and what the run did to the outside is found in the world.
    - Caller-supplied functions take the world and return a result together
      with the new world; they may throw. *)

From Stdlib Require Import ZArith String DecimalString List FunctionalExtensionality.
From stdpp Require Import base gmap strings list fin_maps.

Local Open Scope Z_scope.
#[local] Set Warnings "-clear-no-such-hyp".

(** ** Values, errors, worlds *)

Definition loc := positive.

#[warnings="-register-all"] Inductive Value : Type :=
| VUndefined
| VNull
| VBool (b : bool)
| VNum (z : Z)
| VStr (s : string)
| VArr (items : list Value)
| VRef (l : loc)
| VHost (name : string).

Inductive Error : Type :=
| TypeError (msg : string)
| Thrown (v : Value).

Inductive Result (A : Type) : Type :=
| Ok (a : A)
| Err (e : Error).
Arguments Ok {A} a.
Arguments Err {A} e.

(** What a run leaves behind for an observer: [EvProduce] is written by an
    instrumented source each time it is asked for a value, [EvCall] by an
    instrumented callback each time it is invoked. *)
Inductive Event : Type :=
| EvProduce (v : Value)
| EvCall (v : Value) (i : Z).

Record World : Type := mkWorld {
  heap : gmap loc (gmap string Value);
  log : list Event
}.

Definition emit (ev : Event) (w : World) : World :=
  mkWorld (heap w) (log w ++ [ev]).

(** [{}] : a new empty record at an address the heap does not use. *)
Definition alloc_object (w : World) : loc * World :=
  let l := fresh (dom (heap w)) in
  (l, mkWorld (<[l := ∅]> (heap w)) (log w)).

(** The characters of a string, as one-character strings. *)
Fixpoint chars (s : string) : list Value :=
  match s with
  | EmptyString => []
  | String c rest => VStr (String c EmptyString) :: chars rest
  end.

(** The names of the properties of the host's [Object.prototype] other than
    [__proto__] (ECMA-262, sections 20.1.3 and B.2.2): functions that every
    plain object inherits. *)
Definition object_prototype_names : list string :=
  ["constructor"; "hasOwnProperty"; "isPrototypeOf"; "propertyIsEnumerable";
   "toLocaleString"; "toString"; "valueOf";
   "__defineGetter__"; "__defineSetter__"; "__lookupGetter__";
   "__lookupSetter__"]%string.

(** Whether a plain object finds a property under this name on its
    prototype. *)
Definition host_defines (field : string) : bool :=
  bool_decide (field = "__proto__"%string) ||
  bool_decide (field ∈ object_prototype_names).

(** What a plain object reads under a name that is not one of its own:
    the accessor [__proto__] answers the prototype, the other names of
    [Object.prototype] its functions, and any other name [undefined]. *)
Definition inherited (field : string) : Value :=
  if bool_decide (field = "__proto__"%string) then VHost "Object.prototype"
  else if bool_decide (field ∈ object_prototype_names)
       then VHost (String.append "Object.prototype." field)
       else VUndefined.

(** [val[field]] on a plain object whose own properties are [o]. *)
Definition read_record (o : gmap string Value) (field : string) : Value :=
  default (inherited field) (o !! field).

(** The name of an array index: its decimal writing without sign or
    leading zero. *)
Definition index_name (i : nat) : string :=
  NilZero.string_of_uint (Nat.to_uint i).

Fixpoint element_named (i : nat) (items : list Value) (field : string)
  : option Value :=
  match items with
  | [] => None
  | v :: rest =>
      if bool_decide (field = index_name i) then Some v
      else element_named (S i) rest field
  end.

(** [val[field]] on an array, or on a string seen as its characters: the
    length, an element, or [undefined] (inherited methods apart). *)
Definition read_items (items : list Value) (field : string) : Value :=
  if bool_decide (field = "length"%string) then VNum (Z.of_nat (length items))
  else default VUndefined (element_named 0 items field).

(** [val[field]]: a [TypeError] on [undefined] and [null]; on a record its
    own property or the one it inherits. *)
Definition get_field (val : Value) (field : string) (w : World) : Result Value :=
  match val with
  | VUndefined | VNull => Err (TypeError "cannot read properties")
  | VRef l => Ok (read_record (default ∅ (heap w !! l)) field)
  | VStr s => Ok (read_items (chars s) field)
  | VArr items => Ok (read_items items field)
  | VBool _ | VNum _ | VHost _ => Ok VUndefined
  end.

(** [obj[field] = v] on a record made by [{}]: a new own property, or a new
    value for the one there is.  The name [__proto__] goes to the setter of
    [Object.prototype] instead, which makes no own property; it replaces
    the prototype when [v] is an object or [null], and the model keeps no
    prototype other than the host's. *)
Definition set_field (obj : loc) (field : string) (v : Value) (w : World) : World :=
  if bool_decide (field = "__proto__"%string) then w
  else mkWorld (<[obj := <[field := v]> (default ∅ (heap w !! obj))]> (heap w)) (log w).

(** A caller-supplied function of a value and an index. *)
Definition Callback (A : Type) : Type := Value -> Z -> World -> Result A * World.

(** ** Generators *)

Inductive Gen : Type :=
| MkGen (step : World -> Step)
with Step : Type :=
| SDone (w : World)
| SThrow (e : Error) (w : World)
| SYield (v : Value) (w : World) (k : Gen).

Definition next (g : Gen) : World -> Step :=
  match g with MkGen step => step end.

(** What a rule receives as [it]: a plain value or a generator object. *)
Inductive Source : Type :=
| SrcValue (v : Value)
| SrcGen (g : Gen).

Definition QueryRule : Type := Source -> Gen.

(** The iterator of an array: one element per [next]. *)
Fixpoint of_list (items : list Value) : Gen :=
  MkGen (fun w =>
    match items with
    | [] => SDone w
    | v :: rest => SYield v w (of_list rest)
    end).

(** [it[Symbol.iterator]()] *)
Definition get_iterator (it : Source) : Result Gen :=
  match it with
  | SrcGen g => Ok g
  | SrcValue (VArr items) => Ok (of_list items)
  | SrcValue (VStr s) => Ok (of_list (chars s))
  | SrcValue _ => Err (TypeError "not iterable")
  end.

(** The head of every rule, [for (const val of it)]: the iterator is obtained
    when the generator is first resumed, then [loop] runs over it. *)
Definition for_of (it : Source) (loop : Gen -> Gen) : Gen :=
  MkGen (fun w =>
    match get_iterator it with
    | Err e => SThrow e w
    | Ok g => next (loop g) w
    end).

(** ** Rule factory *)

(** [for (const field of fields) obj[field] = val[field];] *)
Fixpoint copy_fields (obj : loc) (val : Value) (fields : list string) (w : World)
  : Result unit * World :=
  match fields with
  | [] => (Ok tt, w)
  | field :: rest =>
      match get_field val field w with
      | Err e => (Err e, w)
      | Ok x => copy_fields obj val rest (set_field obj field x w)
      end
  end.

(** [for (const val of it) { const obj = {}; ...; yield obj; }] *)
Fixpoint select_fields_loop (fields : list string) (g : Gen) {struct g} : Gen :=
  match g with
  | MkGen step =>
      MkGen (fun w =>
        match step w with
        | SDone w' => SDone w'
        | SThrow e w' => SThrow e w'
        | SYield val w' k =>
            let (obj, w1) := alloc_object w' in
            match copy_fields obj val fields w1 with
            | (Err e, w2) => SThrow e w2
            | (Ok _, w2) => SYield (VRef obj) w2 (select_fields_loop fields k)
            end
        end)
  end.

(** [for (const val of it) yield val[fields];] *)
Fixpoint select_field_loop (field : string) (g : Gen) {struct g} : Gen :=
  match g with
  | MkGen step =>
      MkGen (fun w =>
        match step w with
        | SDone w' => SDone w'
        | SThrow e w' => SThrow e w'
        | SYield val w' k =>
            match get_field val field w' with
            | Err e => SThrow e w'
            | Ok x => SYield x w' (select_field_loop field k)
            end
        end)
  end.

(** The argument of [select]: [Array.isArray(fields)] or not. *)
Inductive Fields : Type :=
| FieldArray (names : list string)
| FieldName (name : string).

Definition BuildSelectRule (fields : Fields) : QueryRule :=
  match fields with
  | FieldArray names => fun it => for_of it (select_fields_loop names)
  | FieldName name => fun it => for_of it (select_field_loop name)
  end.

(** [let i = 0; for (const val of it) { if (fn(val, i++)) yield val; }]
    The source declares [fn] as returning a boolean. *)
Fixpoint where_loop (fn : Callback bool) (i : Z) (g : Gen) {struct g} : Gen :=
  match g with
  | MkGen step =>
      MkGen (fun w =>
        match step w with
        | SDone w' => SDone w'
        | SThrow e w' => SThrow e w'
        | SYield val w' k =>
            match fn val i w' with
            | (Err e, w2) => SThrow e w2
            | (Ok true, w2) => SYield val w2 (where_loop fn (i + 1) k)
            | (Ok false, w2) => next (where_loop fn (i + 1) k) w2
            end
        end)
  end.

Definition BuildWhereRule (fn : Callback bool) : QueryRule :=
  fun it => for_of it (where_loop fn 0).

(** [yield* val] followed by the rest of the generator body. *)
Fixpoint yield_star (inner : Gen) (rest : Gen) {struct inner} : Gen :=
  match inner with
  | MkGen step =>
      MkGen (fun w =>
        match step w with
        | SDone w' => next rest w'
        | SThrow e w' => SThrow e w'
        | SYield v w' k => SYield v w' (yield_star k rest)
        end)
  end.

(** [let flattened = 0;
     for (const val of it) {
       if (n >= 0 && flattened >= n) break;
       yield* val; flattened++; }] *)
Fixpoint flat_loop (n : Z) (flattened : Z) (g : Gen) {struct g} : Gen :=
  match g with
  | MkGen step =>
      MkGen (fun w =>
        match step w with
        | SDone w' => SDone w'
        | SThrow e w' => SThrow e w'
        | SYield val w' k =>
            if (0 <=? n) && (n <=? flattened) then SDone w'
            else
              match get_iterator (SrcValue val) with
              | Err e => SThrow e w'
              | Ok inner => next (yield_star inner (flat_loop n (flattened + 1) k)) w'
              end
        end)
  end.

(** [n] omitted: the default [-1]. *)
Definition BuildFlatRule (n : option Z) : QueryRule :=
  fun it => for_of it (flat_loop (default (-1) n) 0).

(** [let taken = 0;
     for (const val of it) { if (taken >= n) break; yield val; taken++; }]
    The test is made on the value the loop has just pulled. *)
Fixpoint take_loop (n : Z) (taken : Z) (g : Gen) {struct g} : Gen :=
  match g with
  | MkGen step =>
      MkGen (fun w =>
        match step w with
        | SDone w' => SDone w'
        | SThrow e w' => SThrow e w'
        | SYield val w' k =>
            if n <=? taken then SDone w'
            else SYield val w' (take_loop n (taken + 1) k)
        end)
  end.

Definition BuildTakeRule (n : Z) : QueryRule :=
  fun it => for_of it (take_loop n 0).

(** [let skipped = 0;
     for (const val of it) { if (skipped >= n) yield val; skipped++; }] *)
Fixpoint skip_loop (n : Z) (skipped : Z) (g : Gen) {struct g} : Gen :=
  match g with
  | MkGen step =>
      MkGen (fun w =>
        match step w with
        | SDone w' => SDone w'
        | SThrow e w' => SThrow e w'
        | SYield val w' k =>
            if n <=? skipped then SYield val w' (skip_loop n (skipped + 1) k)
            else next (skip_loop n (skipped + 1) k) w'
        end)
  end.

Definition BuildSkipRule (n : Z) : QueryRule :=
  fun it => for_of it (skip_loop n 0).

(** [let i = 0; for (const val of it) yield fn(val, i++);] *)
Fixpoint map_loop (fn : Callback Value) (i : Z) (g : Gen) {struct g} : Gen :=
  match g with
  | MkGen step =>
      MkGen (fun w =>
        match step w with
        | SDone w' => SDone w'
        | SThrow e w' => SThrow e w'
        | SYield val w' k =>
            match fn val i w' with
            | (Err e, w2) => SThrow e w2
            | (Ok x, w2) => SYield x w2 (map_loop fn (i + 1) k)
            end
        end)
  end.

Definition BuildMapRule (fn : Callback Value) : QueryRule :=
  fun it => for_of it (map_loop fn 0).

(** ** Query builder: compilation *)

Definition finished : Gen := MkGen (fun w => SDone w).

(** [function*(it) { yield* it; }] *)
Definition identity_rule : QueryRule :=
  fun it =>
    MkGen (fun w =>
      match get_iterator it with
      | Err e => SThrow e w
      | Ok g => next (yield_star g finished) w
      end).

(** [Query.compile], on the contents of [this.rules]: the first rule, then
    for each further rule [compiled = it => rule(prevCompiled(it))]; the
    identity generator when there is no rule. *)
Definition compile_rules (rules : list QueryRule) : QueryRule :=
  match rules with
  | first :: others =>
      fold_left
        (fun (prevCompiled : QueryRule) (rule : QueryRule) =>
           fun it => rule (SrcGen (prevCompiled it)))
        others first
  | [] => identity_rule
  end.

(** ** Query executor *)

Record QueryExecutor : Type := mkExecutor {
  query : QueryRule;
  iterable : Source
}.

(** [constructor(query, iterable=null)]: an omitted or [undefined] argument
    takes the default. *)
Definition new_QueryExecutor (query : QueryRule) (iterable : option Source)
  : QueryExecutor :=
  mkExecutor query
    match iterable with
    | None | Some (SrcValue VUndefined) => SrcValue VNull
    | Some it => it
    end.

(** [*[Symbol.iterator]() { yield* this.query(this.iterable); }] *)
Definition exec_iterator (e : QueryExecutor) : Gen :=
  MkGen (fun w => next (yield_star (query e (iterable e)) finished) w).

(** [for (const val of this) fn(val);] *)
Fixpoint foreach_loop (fn : Value -> World -> Result unit * World)
    (g : Gen) (w : World) {struct g} : Result unit * World :=
  match g with
  | MkGen step =>
      match step w with
      | SDone w' => (Ok tt, w')
      | SThrow e w' => (Err e, w')
      | SYield val w' k =>
          match fn val w' with
          | (Err e, w2) => (Err e, w2)
          | (Ok _, w2) => foreach_loop fn k w2
          end
      end
  end.

Definition foreach (fn : Value -> World -> Result unit * World)
    (e : QueryExecutor) : World -> Result unit * World :=
  foreach_loop fn (exec_iterator e).

(** [let i = 0; for (const val of this) fn(val, i++);] *)
Fixpoint iforeach_loop (fn : Callback unit) (i : Z)
    (g : Gen) (w : World) {struct g} : Result unit * World :=
  match g with
  | MkGen step =>
      match step w with
      | SDone w' => (Ok tt, w')
      | SThrow e w' => (Err e, w')
      | SYield val w' k =>
          match fn val i w' with
          | (Err e, w2) => (Err e, w2)
          | (Ok _, w2) => iforeach_loop fn (i + 1) k w2
          end
      end
  end.

Definition iforeach (fn : Callback unit) (e : QueryExecutor)
  : World -> Result unit * World :=
  iforeach_loop fn 0 (exec_iterator e).

(** [Array.from]: the values pulled so far are lost when a pull throws. *)
Fixpoint array_from (g : Gen) (w : World) {struct g} : Result (list Value) * World :=
  match g with
  | MkGen step =>
      match step w with
      | SDone w' => (Ok [], w')
      | SThrow e w' => (Err e, w')
      | SYield val w' k =>
          match array_from k w' with
          | (Ok vals, w2) => (Ok (val :: vals), w2)
          | (Err e, w2) => (Err e, w2)
          end
      end
  end.

Definition collect (e : QueryExecutor) : World -> Result (list Value) * World :=
  array_from (exec_iterator e).

Definition exec_on (e : QueryExecutor) (it : Source) : QueryExecutor :=
  mkExecutor (query e) it.

(** ** Query builder: objects and their rule arrays

    A [Query] object has one field, [rules], which refers to an array of
    rules.  Both live in a store: methods that mutate ([_pushrule], [pack])
    and methods that allocate ([query], [extend]) pass it along. *)

Record Store : Type := mkStore {
  arrays : gmap loc (list QueryRule);
  queries : gmap loc loc
}.

Definition empty_store : Store := mkStore ∅ ∅.

(** An array literal [[r1, ..., rn]] *)
Definition new_array (rules : list QueryRule) (s : Store) : loc * Store :=
  let a := fresh (dom (arrays s)) in
  (a, mkStore (<[a := rules]> (arrays s)) (queries s)).

(** [new Query(rules)] *)
Definition new_Query (rules : loc) (s : Store) : loc * Store :=
  let q := fresh (dom (queries s)) in
  (q, mkStore (arrays s) (<[q := rules]> (queries s))).

(** The contents of [q.rules] *)
Definition rules_of (s : Store) (q : loc) : list QueryRule :=
  match queries s !! q with
  | Some a => default [] (arrays s !! a)
  | None => []
  end.

(** [query()]: [new Query()] with the default [rules=[]] *)
Definition new_query (s : Store) : loc * Store :=
  let (a, s1) := new_array [] s in new_Query a s1.

(** [this.rules.push(rule); return this;]: the array is changed in place. *)
Definition _pushrule (q : loc) (rule : QueryRule) (s : Store) : loc * Store :=
  match queries s !! q with
  | Some a => (q, mkStore (alter (fun rules => rules ++ [rule]) a (arrays s)) (queries s))
  | None => (q, s)
  end.

Definition q_select (fields : Fields) (q : loc) : Store -> loc * Store :=
  _pushrule q (BuildSelectRule fields).
Definition q_where (fn : Callback bool) (q : loc) : Store -> loc * Store :=
  _pushrule q (BuildWhereRule fn).
Definition q_flat (n : option Z) (q : loc) : Store -> loc * Store :=
  _pushrule q (BuildFlatRule n).
Definition q_take (n : Z) (q : loc) : Store -> loc * Store :=
  _pushrule q (BuildTakeRule n).
Definition q_skip (n : Z) (q : loc) : Store -> loc * Store :=
  _pushrule q (BuildSkipRule n).
Definition q_map (fn : Callback Value) (q : loc) : Store -> loc * Store :=
  _pushrule q (BuildMapRule fn).

Definition compile (q : loc) (s : Store) : QueryRule :=
  compile_rules (rules_of s q).

(** [on(iterable)]: the argument may be omitted. *)
Definition on (q : loc) (iterable : option Source) (s : Store) : QueryExecutor :=
  new_QueryExecutor (compile q s) iterable.

Definition build (q : loc) (s : Store) : QueryExecutor :=
  on q None s.

(** [new Query([this.compile()])] *)
Definition extend (q : loc) (s : Store) : loc * Store :=
  let (a, s1) := new_array [compile q s] s in new_Query a s1.

(** [QueryExecutor.extend]: [new Query([this.query])] *)
Definition exec_extend (e : QueryExecutor) (s : Store) : loc * Store :=
  let (a, s1) := new_array [query e] s in new_Query a s1.

(** [if (this.rules.length > 0) this.rules = [this.compile()]; return this;] *)
Definition pack (q : loc) (s : Store) : loc * Store :=
  if (0 <? Z.of_nat (length (rules_of s q)))
  then
    let (a, s1) := new_array [compile q s] s in
    (q, mkStore (arrays s1) (<[q := a]> (queries s1)))
  else (q, s).

(** ** Asynchronous results

    [acollect] hands the results of [fn] to the host's [Promise.all].  A
    result is a plain value or a promise, named by a number; the host settles
    promises over time, one [Settlement] after the other, in an order the
    program does not choose.  [Promise_all] and [all_step] follow the
    ECMAScript description of [Promise.all]: one slot per element, filled when
    the element's promise is fulfilled; the aggregate is fulfilled when no
    slot is empty and rejected by the first rejection of an element.

    Two limits.  The state of an aggregate is the one it has once the host
    has run the reactions that are due: the slot of a plain value is filled
    from the start, whereas the host returns a pending promise and fills it
    a few turns later; the statements speak of the state an aggregate ends
    in, never of the moment it gets there.  And a schedule is meant to
    settle a promise once, as the host does: the statements take schedules
    in which no awaited promise is both fulfilled and rejected. *)

Inductive Awaitable : Type :=
| Plain (v : Value)
| Promise (p : nat).

Inductive Outcome (A : Type) : Type :=
| Pending
| Fulfilled (a : A)
| Rejected (e : Error).
Arguments Pending {A}.
Arguments Fulfilled {A} a.
Arguments Rejected {A} e.

(** Promise [p] is fulfilled with a value ([Ok]) or rejected ([Err]). *)
Inductive Settlement : Type :=
| Settle (p : nat) (r : Result Value).

Record AllPromise : Type := mkAll {
  inputs : list Awaitable;
  slots : list (option Value);
  outcome : Outcome (list Value)
}.

Definition slot_of (a : Awaitable) : option Value :=
  match a with
  | Plain v => Some v
  | Promise _ => None
  end.

Fixpoint all_values (slots : list (option Value)) : option (list Value) :=
  match slots with
  | [] => Some []
  | Some v :: rest =>
      match all_values rest with
      | Some vs => Some (v :: vs)
      | None => None
      end
  | None :: _ => None
  end.

Definition completion (slots : list (option Value)) : Outcome (list Value) :=
  match all_values slots with
  | Some vs => Fulfilled vs
  | None => Pending
  end.

Definition Promise_all (promises : list Awaitable) : AllPromise :=
  let slots := map slot_of promises in
  mkAll promises slots (completion slots).

Definition awaits (p : nat) (a : Awaitable) : bool :=
  match a with
  | Plain _ => false
  | Promise q => Nat.eqb p q
  end.

Fixpoint fill (p : nat) (v : Value) (inputs : list Awaitable)
    (slots : list (option Value)) : list (option Value) :=
  match inputs, slots with
  | a :: inputs', slot :: slots' =>
      (match slot with
       | Some x => Some x
       | None => if awaits p a then Some v else None
       end) :: fill p v inputs' slots'
  | _, _ => slots
  end.

Definition all_step (st : AllPromise) (ev : Settlement) : AllPromise :=
  match outcome st with
  | Pending =>
      match ev with
      | Settle p (Ok v) =>
          let slots' := fill p v (inputs st) (slots st) in
          mkAll (inputs st) slots' (completion slots')
      | Settle p (Err e) =>
          if existsb (awaits p) (inputs st)
          then mkAll (inputs st) (slots st) (Rejected e)
          else st
      end
  | _ => st
  end.

Definition settle_all (st : AllPromise) (schedule : list Settlement) : AllPromise :=
  fold_left all_step schedule st.

(** The state of promise [p] itself after a schedule: its first settlement. *)
Fixpoint promise_state (schedule : list Settlement) (p : nat) : Outcome Value :=
  match schedule with
  | [] => Pending
  | Settle q r :: rest =>
      if Nat.eqb p q
      then match r with Ok v => Fulfilled v | Err e => Rejected e end
      else promise_state rest p
  end.

(** [let i = 0; const promises = [];
     for (const val of this) promises.push(fn(val, i++));] *)
Fixpoint acollect_loop (fn : Callback Awaitable) (i : Z) (promises : list Awaitable)
    (g : Gen) (w : World) {struct g} : Result (list Awaitable) * World :=
  match g with
  | MkGen step =>
      match step w with
      | SDone w' => (Ok promises, w')
      | SThrow e w' => (Err e, w')
      | SYield val w' k =>
          match fn val i w' with
          | (Err e, w2) => (Err e, w2)
          | (Ok p, w2) => acollect_loop fn (i + 1) (promises ++ [p]) k w2
          end
      end
  end.

(** [return Promise.all(promises);] after the loop; [fn] omitted: the
    default [x => x]. *)
Definition acollect (fn : option (Callback Awaitable)) (e : QueryExecutor) (w : World)
  : Result AllPromise * World :=
  let fn := default (fun x _ w => (Ok (Plain x), w)) fn in
  match acollect_loop fn 0 [] (exec_iterator e) w with
  | (Ok promises, w') => (Ok (Promise_all promises), w')
  | (Err e, w') => (Err e, w')
  end.

(** ** Stages of the public interface, observers and reference notions *)

(** One chaining call on a builder: which method, with which argument. *)
Inductive Stage : Type :=
| StSelect (fields : Fields)
| StWhere (fn : Callback bool)
| StFlat (n : option Z)
| StTake (n : Z)
| StSkip (n : Z)
| StMap (fn : Callback Value).

Definition build_rule (st : Stage) : QueryRule :=
  match st with
  | StSelect fields => BuildSelectRule fields
  | StWhere fn => BuildWhereRule fn
  | StFlat n => BuildFlatRule n
  | StTake n => BuildTakeRule n
  | StSkip n => BuildSkipRule n
  | StMap fn => BuildMapRule fn
  end.

Definition add_stage (q : loc) (st : Stage) (s : Store) : loc * Store :=
  match st with
  | StSelect fields => q_select fields q s
  | StWhere fn => q_where fn q s
  | StFlat n => q_flat n q s
  | StTake n => q_take n q s
  | StSkip n => q_skip n q s
  | StMap fn => q_map fn q s
  end.

(** [q.m1(..).m2(..)...]: every call returns the builder it was called on. *)
Fixpoint add_stages (q : loc) (sts : list Stage) (s : Store) : loc * Store :=
  match sts with
  | [] => (q, s)
  | st :: rest => let (q', s') := add_stage q st s in add_stages q' rest s'
  end.

(** A generator that throws when first resumed. *)
Definition fails_with (e : Error) : Gen := MkGen (fun w => SThrow e w).

(** What consuming [it] as it stands produces: [for (const val of it) yield val]
    without any processing. *)
Definition iterate (it : Source) : Gen := for_of it (fun g => g).

(** The composition the specification describes: the output of each stage
    is the input of the next one, in list order. *)
Definition pipeline (rules : list QueryRule) (it : Source) : Source :=
  fold_left (fun src rule => SrcGen (rule src)) rules it.

(** A one-shot source that reports every value it is asked for:
    [function*() { for (const v of items) { report(v); yield v; } }] *)
Fixpoint logged_source (items : list Value) : Gen :=
  MkGen (fun w =>
    match items with
    | [] => SDone w
    | v :: rest => SYield v (emit (EvProduce v) w) (logged_source rest)
    end).

(** A callback that reports its arguments and then answers [f value index],
    where [f] may look at the heap. *)
Definition observed {A : Type} (f : Value -> Z -> gmap loc (gmap string Value) -> Result A)
  : Callback A :=
  fun val i w => (f val i (heap w), emit (EvCall val i) w).

(** A callback without effects. *)
Definition pure_callback {A : Type} (f : Value -> Z -> A) : Callback A :=
  fun val i w => (Ok (f val i), w).

(** Everything a generator yields when it is driven to its end from [w],
    with how it ended and the world it left. *)
Fixpoint drain (g : Gen) (w : World) {struct g} : list Value * (Result unit * World) :=
  match g with
  | MkGen step =>
      match step w with
      | SDone w' => ([], (Ok tt, w'))
      | SThrow e w' => ([], (Err e, w'))
      | SYield val w' k =>
          let (vals, r) := drain k w' in (val :: vals, r)
      end
  end.

Definition array_source (items : list Value) : Source := SrcValue (VArr items).

(** The elements of [items] with their positions, counted from [i]. *)
Fixpoint indexed (i : Z) (items : list Value) : list (Value * Z) :=
  match items with
  | [] => []
  | v :: rest => (v, i) :: indexed (i + 1) rest
  end.

(** ** Notions used by the statements *)

Definition iterates_input (r : QueryRule) : Prop :=
  forall it, r it = r (SrcGen (iterate it)).

Definition propagates_failure (r : QueryRule) : Prop :=
  forall e w, next (r (SrcGen (fails_with e))) w = SThrow e w.

Definition compose_rule (prevCompiled rule : QueryRule) : QueryRule :=
  fun it => rule (SrcGen (prevCompiled it)).

(** [q] is a builder of the store: its [rules] field refers to an array. *)
Definition is_query (s : Store) (q : loc) : Prop :=
  exists a, queries s !! q = Some a /\ is_Some (arrays s !! a).

(** Two builders of the store whose [rules] fields refer to different arrays. *)
Definition separate (s : Store) (q1 q2 : loc) : Prop :=
  exists a1 a2,
    queries s !! q1 = Some a1 /\ queries s !! q2 = Some a2 /\ a1 <> a2 /\
    is_Some (arrays s !! a1) /\ is_Some (arrays s !! a2).

(** [query().m1(..)...mn(..)], starting in store [s0] *)
Definition builder (sts : list Stage) (s0 : Store) : loc * Store :=
  let (q, s) := new_query s0 in add_stages q sts s.

(** The iterable values of the model. *)
Inductive Group : Type :=
| GArr (items : list Value)
| GStr (s : string).

Definition group_value (g : Group) : Value :=
  match g with
  | GArr items => VArr items
  | GStr s => VStr s
  end.

Definition group_members (g : Group) : list Value :=
  match g with
  | GArr items => items
  | GStr s => chars s
  end.

(** The members of a value, when it is iterable. *)
Definition members (v : Value) : option (list Value) :=
  match v with
  | VArr items => Some items
  | VStr s => Some (chars s)
  | _ => None
  end.

(** Expanding the values of a list one after the other, up to the first one
    that is not iterable. *)
Fixpoint expand (vals : list Value) : list Value :=
  match vals with
  | [] => []
  | v :: rest =>
      match members v with
      | Some items => items ++ expand rest
      | None => []
      end
  end.

(** The groups [flat(n)] still expands once [flattened] have been:
    all of them when [n] is negative. *)
Definition still_expanded {A : Type} (n flattened : Z) (l : list A) : list A :=
  if n <? 0 then l else firstn (Z.to_nat (n - flattened)) l.

(** The predicate [p], which may read its two arguments and the heap, made
    into a callback that reports each of its invocations. *)
Definition observed_predicate (p : Value -> Z -> gmap loc (gmap string Value) -> bool)
  : Callback bool :=
  observed (fun val i h => Ok (p val i h)).

(** What the specification says of [where], over the elements of a list: the
    predicate is asked about each element in turn with the position of the
    element; the element is kept when the answer is true; a throw ends the
    run. *)
Fixpoint where_run (fn : Callback bool) (i : Z) (items : list Value) (w : World)
  : list Value * (Result unit * World) :=
  match items with
  | [] => ([], (Ok tt, w))
  | v :: rest =>
      match fn v i w with
      | (Err e, w2) => ([], (Err e, w2))
      | (Ok keep, w2) =>
          let (vals, r) := where_run fn (i + 1) rest w2 in
          (if keep then v :: vals else vals, r)
      end
  end.

Definition nullish (v : Value) : bool :=
  match v with
  | VUndefined | VNull => true
  | _ => false
  end.

(** The names among [names] under which an assignment makes an own
    property of a record: all but [__proto__]. *)
Definition stored_names (names : list string) : list string :=
  filter (fun f => f <> "__proto__"%string) names.

(** A world with one record, [{a: 1, b: 2}]. *)
Definition sample_world : World :=
  mkWorld {[ 1%positive := {[ "a"%string := VNum 1; "b"%string := VNum 2 ]} ]} [].

(** A sequence of chaining calls on two builders [a] and [b]: each entry
    says whether the call is made on [a] ([true]) or on [b] ([false]). *)
Fixpoint mutate (a b : loc) (ms : list (bool * Stage)) (s : Store) : Store :=
  match ms with
  | [] => s
  | (on_a, st) :: rest =>
      mutate a b rest (snd (add_stage (if on_a then a else b) st s))
  end.

(** The calls of [ms] made on [a] ([true]) or on [b] ([false]). *)
Definition calls_on (on_a : bool) (ms : list (bool * Stage)) : list (bool * Stage) :=
  List.filter (fun m => Bool.eqb (fst m) on_a) ms.

(** A rule of the library: it reads its input through the iteration
    protocol, and a failure of its input at the first pull is its own
    failure at the first pull.  The six rules of the factory are such rules,
    and so is every transformer compiled from such rules. *)
Definition library_rule (r : QueryRule) : Prop :=
  iterates_input r /\ propagates_failure r.

Definition not_iterable : Error := TypeError "not iterable".

(** What an instrumented source and an instrumented callback report when the
    elements of [items] are pulled and passed on one after the other. *)
Definition interleaved (i : Z) (items : list Value) : list Event :=
  flat_map (fun vi => [EvProduce (fst vi); EvCall (fst vi) (snd vi)]) (indexed i items).

(** A callback that starts one asynchronous operation per value, named after
    the index, and throws on the number 3. *)
Definition sample_launch (v : Value) (i : Z) (h : gmap loc (gmap string Value))
  : Result Awaitable :=
  match v with
  | VNum 3 => Err (Thrown (VStr "three"))
  | _ => Ok (Promise (Z.to_nat i))
  end.

(** Is promise [p] one of the results handed to [Promise.all]? *)
Definition awaited (inputs : list Awaitable) (p : nat) : bool :=
  existsb (awaits p) inputs.

(** No promise among [inputs] is rejected in [schedule]. *)
Definition no_rejection (inputs : list Awaitable) (schedule : list Settlement) : Prop :=
  forall p e, In (Settle p (Err e)) schedule -> awaited inputs p = false.

(** The value a result stands for once [schedule] has taken place. *)
Definition resolved (schedule : list Settlement) (a : Awaitable) : Value :=
  match a with
  | Plain v => v
  | Promise p =>
      match promise_state schedule p with
      | Fulfilled v => v
      | _ => VUndefined
      end
  end.

(** The slot of a result once [schedule] has taken place. *)
Definition slot_after (schedule : list Settlement) (a : Awaitable) : option Value :=
  match a with
  | Plain v => Some v
  | Promise p =>
      match promise_state schedule p with
      | Fulfilled v => Some v
      | _ => None
      end
  end.

(** ** Callbacks and runs of the examples *)

Definition num_gt (bound : Z) : Callback bool :=
  pure_callback (fun v _ => match v with VNum z => bound <? z | _ => false end).

Definition num_double : Callback Value :=
  pure_callback (fun v _ => match v with VNum z => VNum (z * 2) | _ => v end).

Definition run_stage (st : Stage) (items : list Value) (w : World)
  : Result (list Value) * World :=
  let b := builder [st] empty_store in
  collect (on (fst b) (Some (array_source items)) (snd b)) w.

(** ** Notions used by the further properties *)

(** [query().m1(..)...mn(..).on(S)], in a store of its own *)
Definition query_on (sts : list Stage) (S : Source) : QueryExecutor :=
  let b := builder sts empty_store in
  on (fst b) (Some S) (snd b).

(** [(v, i) => fn2(fn1(v, i), i)]: a throw of [fn1] is the throw of the
    whole, and [fn2] then is not invoked. *)
Definition then_callback (fn1 fn2 : Callback Value) : Callback Value :=
  fun val i w =>
    match fn1 val i w with
    | (Err e, w1) => (Err e, w1)
    | (Ok x, w1) => fn2 x i w1
    end.

(** A callback that reads its first argument only. *)
Definition value_predicate (p : Value -> bool) : Callback bool :=
  pure_callback (fun val _ => p val).

(** A callback that reports its arguments and returns nothing. *)
Definition reporting : Callback unit :=
  fun val i w => (Ok tt, emit (EvCall val i) w).

(** The error of [val[field]] on [null] or [undefined]. *)
Definition cannot_read : Error := TypeError "cannot read properties".

(** ** Basic facts about generators *)

Definition step_all (P : Gen -> Prop) (s : Step) : Prop :=
  match s with
  | SYield _ _ k => P k
  | _ => True
  end.

Lemma Gen_induction (P : Gen -> Prop) :
  (forall step, (forall w, step_all P (step w)) -> P (MkGen step)) ->
  forall g, P g.
Proof.
  intros H. fix IH 1. intros [step]. apply H. intros w.
  destruct (step w) as [w'|e w'|v w' k]; simpl; auto.
Qed.

Lemma gen_eta (g : Gen) : MkGen (fun w => next g w) = g.
Proof. destruct g; reflexivity. Qed.

Lemma gen_ext (g1 g2 : Gen) : (forall w, next g1 w = next g2 w) -> g1 = g2.
Proof.
  intros H. rewrite <- (gen_eta g1), <- (gen_eta g2). f_equal.
  apply functional_extensionality, H.
Qed.

Lemma for_of_gen (loop : Gen -> Gen) (g : Gen) : for_of (SrcGen g) loop = loop g.
Proof. apply gen_ext. intros w. reflexivity. Qed.

Lemma for_of_array (loop : Gen -> Gen) (items : list Value) :
  for_of (array_source items) loop = loop (of_list items).
Proof. apply gen_ext. intros w. reflexivity. Qed.

Lemma yield_star_finished (g : Gen) : yield_star g finished = g.
Proof.
  induction g as [step IH] using Gen_induction.
  apply gen_ext. intros w. simpl. specialize (IH w).
  destruct (step w); simpl in *; congruence.
Qed.

Lemma exec_iterator_query (e : QueryExecutor) :
  exec_iterator e = query e (iterable e).
Proof.
  unfold exec_iterator. rewrite yield_star_finished. apply gen_eta.
Qed.

Lemma iterate_gen (g : Gen) : iterate (SrcGen g) = g.
Proof. apply gen_eta. Qed.

Lemma identity_rule_iterate (it : Source) : identity_rule it = iterate it.
Proof.
  apply gen_ext. intros w. unfold identity_rule, iterate, for_of. simpl.
  destruct (get_iterator it); [|reflexivity]. now rewrite yield_star_finished.
Qed.

(** ** Rules consume their input through the iteration protocol only *)

Lemma iterate_not_iterable (it : Source) (e : Error) :
  get_iterator it = Err e -> iterate it = fails_with e.
Proof.
  intros H. apply gen_ext. intros w. unfold iterate, for_of. simpl. now rewrite H.
Qed.

Lemma iterate_iterable (it : Source) (g : Gen) :
  get_iterator it = Ok g -> iterate it = g.
Proof.
  intros H. apply gen_ext. intros w. unfold iterate, for_of. simpl. now rewrite H.
Qed.

Lemma for_of_iterate (loop : Gen -> Gen) (it : Source) :
  (forall e w, next (loop (fails_with e)) w = SThrow e w) ->
  for_of it loop = for_of (SrcGen (iterate it)) loop.
Proof.
  intros Hloop. apply gen_ext. intros w. unfold for_of at 1 2. simpl.
  destruct (get_iterator it) as [g|e] eqn:E.
  - now rewrite (iterate_iterable _ _ E).
  - now rewrite (iterate_not_iterable _ _ E), Hloop.
Qed.

Lemma build_rule_loop (st : Stage) :
  exists loop, (forall it, build_rule st it = for_of it loop) /\
               (forall e w, next (loop (fails_with e)) w = SThrow e w).
Proof.
  destruct st as [[names|name]|fn|n|n|n|fn]; simpl; eexists; split;
    try (intros it; reflexivity); intros e w; reflexivity.
Qed.

Lemma build_rule_iterates_input (st : Stage) : iterates_input (build_rule st).
Proof.
  destruct (build_rule_loop st) as (loop & Heq & Hloop).
  intros it. rewrite !Heq. now apply for_of_iterate.
Qed.

Lemma build_rule_propagates_failure (st : Stage) : propagates_failure (build_rule st).
Proof.
  destruct (build_rule_loop st) as (loop & Heq & Hloop).
  intros e w. rewrite Heq. apply Hloop.
Qed.

Lemma identity_rule_iterates_input : iterates_input identity_rule.
Proof.
  intros it. now rewrite !identity_rule_iterate, iterate_gen.
Qed.

(** ** Compilation is composition *)

Lemma fold_compose_pipeline (others : list QueryRule) :
  forall (f : QueryRule) (it : Source),
    SrcGen (fold_left compose_rule others f it) = pipeline others (SrcGen (f it)).
Proof.
  induction others as [|r others IH]; intros f it; simpl; [reflexivity|].
  now rewrite IH.
Qed.

Lemma compile_rules_pipeline (rules : list QueryRule) (it : Source) :
  compile_rules rules it = iterate (pipeline rules it).
Proof.
  destruct rules as [|first others].
  - apply identity_rule_iterate.
  - unfold compile_rules. fold compose_rule.
    change (pipeline (first :: others) it) with (pipeline others (SrcGen (first it))).
    now rewrite <- fold_compose_pipeline, iterate_gen.
Qed.

Lemma pipeline_app (R1 R2 : list QueryRule) (it : Source) :
  pipeline (R1 ++ R2) it = pipeline R2 (pipeline R1 it).
Proof. apply fold_left_app. Qed.

Lemma pipeline_iterate (rules : list QueryRule) (it : Source) :
  Forall iterates_input rules ->
  iterate (pipeline rules (SrcGen (iterate it))) = iterate (pipeline rules it).
Proof.
  intros H. destruct H as [|r rules Hr _]; simpl.
  - now rewrite iterate_gen.
  - now rewrite <- Hr.
Qed.

Lemma compile_rules_app (R1 R2 : list QueryRule) (it : Source) :
  Forall iterates_input R2 ->
  compile_rules (R1 ++ R2) it = compile_rules R2 (SrcGen (compile_rules R1 it)).
Proof.
  intros H. rewrite !compile_rules_pipeline, pipeline_app.
  now rewrite pipeline_iterate.
Qed.

(** ** The store of builders *)

Lemma separate_sym s q1 q2 : separate s q1 q2 -> separate s q2 q1.
Proof. intros (a1 & a2 & ? & ? & ? & ? & ?). exists a2, a1. auto. Qed.

Lemma separate_is_query s q1 q2 : separate s q1 q2 -> is_query s q1.
Proof. intros (a1 & a2 & ? & ? & ? & ? & ?). exists a1. auto. Qed.

Lemma pushrule_fst q rule s : fst (_pushrule q rule s) = q.
Proof. unfold _pushrule. destruct (queries s !! q); reflexivity. Qed.

Lemma pushrule_rules_same q rule s :
  is_query s q ->
  rules_of (snd (_pushrule q rule s)) q = rules_of s q ++ [rule].
Proof.
  intros (a & Hq & [rs Ha]). unfold _pushrule, rules_of. rewrite Hq. simpl.
  rewrite Hq, lookup_alter_eq, Ha. reflexivity.
Qed.

Lemma pushrule_rules_other q q' rule s :
  separate s q q' ->
  rules_of (snd (_pushrule q rule s)) q' = rules_of s q'.
Proof.
  intros (a & a' & Hq & Hq' & Hne & _ & _). unfold _pushrule, rules_of.
  rewrite Hq. simpl. rewrite Hq', lookup_alter_ne by assumption. reflexivity.
Qed.

Lemma pushrule_is_query q q' rule s :
  is_query s q' -> is_query (snd (_pushrule q rule s)) q'.
Proof.
  intros (a' & Hq' & Ha'). unfold _pushrule.
  destruct (queries s !! q) as [a|] eqn:Hq; simpl; [|exists a'; auto].
  exists a'. split; [assumption|]. simpl.
  rewrite lookup_alter_is_Some. assumption.
Qed.

Lemma pushrule_separate q q1 q2 rule s :
  separate s q1 q2 -> separate (snd (_pushrule q rule s)) q1 q2.
Proof.
  intros (a1 & a2 & H1 & H2 & Hne & Ha1 & Ha2). unfold _pushrule.
  destruct (queries s !! q) as [a|] eqn:Hq; simpl.
  - exists a1, a2. simpl. rewrite !lookup_alter_is_Some. auto.
  - exists a1, a2. auto.
Qed.

Lemma add_stage_pushrule q st s : add_stage q st s = _pushrule q (build_rule st) s.
Proof. destruct st; reflexivity. Qed.

Lemma add_stages_fst sts : forall q s, fst (add_stages q sts s) = q.
Proof.
  induction sts as [|st sts IH]; intros q s; simpl; [reflexivity|].
  rewrite add_stage_pushrule.
  destruct (_pushrule q (build_rule st) s) as [q' s'] eqn:E.
  rewrite IH. change q' with (fst (q', s')). rewrite <- E. apply pushrule_fst.
Qed.

Lemma add_stages_rules_same sts : forall q s,
  is_query s q ->
  rules_of (snd (add_stages q sts s)) q = rules_of s q ++ map build_rule sts.
Proof.
  induction sts as [|st sts IH]; intros q s Hq; simpl.
  - now rewrite app_nil_r.
  - rewrite add_stage_pushrule.
    pose proof (pushrule_fst q (build_rule st) s) as Hfst.
    pose proof (pushrule_rules_same q (build_rule st) s Hq) as Hsame.
    pose proof (pushrule_is_query q q (build_rule st) s Hq) as Hwf.
    destruct (_pushrule q (build_rule st) s) as [q' s']. simpl in *. subst q'.
    rewrite IH by assumption. rewrite Hsame, <- app_assoc. reflexivity.
Qed.

Lemma add_stages_rules_other sts : forall q q' s,
  separate s q q' ->
  rules_of (snd (add_stages q sts s)) q' = rules_of s q'.
Proof.
  induction sts as [|st sts IH]; intros q q' s Hsep; simpl; [reflexivity|].
  rewrite add_stage_pushrule.
  pose proof (pushrule_fst q (build_rule st) s) as Hfst.
  pose proof (pushrule_rules_other q q' (build_rule st) s Hsep) as Hother.
  pose proof (pushrule_separate q q q' (build_rule st) s Hsep) as Hsep'.
  destruct (_pushrule q (build_rule st) s) as [q0 s']. simpl in *. subst q0.
  rewrite IH by assumption. assumption.
Qed.

Lemma new_query_spec s0 :
  is_query (snd (new_query s0)) (fst (new_query s0)) /\
  rules_of (snd (new_query s0)) (fst (new_query s0)) = [].
Proof.
  unfold new_query, new_array, new_Query, is_query, rules_of. simpl.
  rewrite !lookup_insert_eq. split; [|reflexivity].
  eexists. split; [reflexivity|]. rewrite lookup_insert_eq. eauto.
Qed.

Lemma extend_spec q s :
  is_query s q ->
  separate (snd (extend q s)) q (fst (extend q s)) /\
  rules_of (snd (extend q s)) (fst (extend q s)) = [compile q s] /\
  rules_of (snd (extend q s)) q = rules_of s q.
Proof.
  intros (a & Hq & Ha).
  unfold extend, new_array, new_Query. simpl.
  pose proof (is_fresh (dom (arrays s))) as Fa.
  pose proof (is_fresh (dom (queries s))) as Fq.
  set (a' := fresh (dom (arrays s))) in *. set (q' := fresh (dom (queries s))) in *.
  clearbody a' q'.
  assert (Hq' : q' <> q).
  { intros E. apply Fq. rewrite E. eapply elem_of_dom_2, Hq. }
  assert (Ha' : a' <> a).
  { intros E. apply Fa. rewrite E. apply elem_of_dom. assumption. }
  split; [|split].
  - exists a, a'. simpl. rewrite lookup_insert_ne, lookup_insert_eq by assumption.
    rewrite lookup_insert_ne, lookup_insert_eq by assumption. repeat split; eauto.
  - unfold rules_of. simpl. rewrite !lookup_insert_eq. reflexivity.
  - unfold rules_of. simpl. rewrite lookup_insert_ne, Hq by assumption.
    rewrite lookup_insert_ne by assumption. reflexivity.
Qed.

Lemma builder_rules sts s0 :
  rules_of (snd (builder sts s0)) (fst (builder sts s0)) = map build_rule sts.
Proof.
  unfold builder. destruct (new_query_spec s0) as [Hq Hnil].
  destruct (new_query s0) as [q s]. simpl in *.
  rewrite add_stages_fst, add_stages_rules_same, Hnil by assumption. reflexivity.
Qed.

Lemma builder_is_query sts s0 :
  is_query (snd (builder sts s0)) (fst (builder sts s0)).
Proof.
  unfold builder. destruct (new_query_spec s0) as [Hq _].
  destruct (new_query s0) as [q s]. simpl in *. rewrite add_stages_fst.
  clear s0. revert q s Hq.
  induction sts as [|st sts IH]; intros q s Hq; simpl; [assumption|].
  rewrite add_stage_pushrule.
  pose proof (pushrule_fst q (build_rule st) s) as Hfst.
  pose proof (pushrule_is_query q q (build_rule st) s Hq) as Hwf.
  destruct (_pushrule q (build_rule st) s) as [q0 s']. simpl in *. subst q0.
  now apply IH.
Qed.

Lemma compile_builder sts s0 :
  compile (fst (builder sts s0)) (snd (builder sts s0)) =
  compile_rules (map build_rule sts).
Proof. unfold compile. now rewrite builder_rules. Qed.

Lemma Forall_build_rule_iterates (sts : list Stage) :
  Forall iterates_input (map build_rule sts).
Proof.
  apply Forall_forall. intros r Hr. apply list_elem_of_In, in_map_iff in Hr.
  destruct Hr as (st & <- & _).
  apply build_rule_iterates_input.
Qed.

(** C1. [compile()] is the sequential composition of the stages of the
    builder, in list order: with no stage it is the identity transformer (its
    output is its input, consumed as it stands), otherwise its output is the
    output of the last stage of the chain in which each stage reads the
    output of the previous one.  Consequently a builder holding the stages
    [R1] followed by [R2], run against a source [S], is the same generator,
    and collects to the same result in every world, as the builder holding
    [R2] run against the output of the builder holding [R1] run against [S]. *)
Theorem compile_sequential_composition :
  (forall s q it,
     match rules_of s q with
     | [] => compile q s it = iterate it
     | first :: others => SrcGen (compile q s it) = pipeline (first :: others) it
     end) /\
  (forall (R1 R2 : list Stage) (s1 s2 s12 : Store) (S : Source),
     let b1 := builder R1 s1 in
     let b2 := builder R2 s2 in
     let b12 := builder (R1 ++ R2) s12 in
     let out1 := SrcGen (exec_iterator (on (fst b1) (Some S) (snd b1))) in
     exec_iterator (on (fst b12) (Some S) (snd b12)) =
     exec_iterator (on (fst b2) (Some out1) (snd b2)) /\
     forall w,
       collect (on (fst b12) (Some S) (snd b12)) w =
       collect (on (fst b2) (Some out1) (snd b2)) w).
Proof.
  split.
  - intros s q it. unfold compile.
    destruct (rules_of s q) as [|first others] eqn:E.
    + apply identity_rule_iterate.
    + unfold compile_rules. fold compose_rule.
      apply (fold_compose_pipeline others first it).
  - intros R1 R2 s1 s2 s12 S b1 b2 b12 out1.
    assert (Heq : exec_iterator (on (fst b12) (Some S) (snd b12)) =
                  exec_iterator (on (fst b2) (Some out1) (snd b2))).
    { subst out1. rewrite !exec_iterator_query. unfold on.
      subst b1 b2 b12. rewrite !compile_builder. simpl.
      rewrite map_app.
      apply compile_rules_app, Forall_build_rule_iterates. }
    split; [exact Heq|]. intros w. unfold collect. now rewrite Heq.
Qed.

(** ** take *)

Lemma take_loop_of_list (n : Z) (items : list Value) : forall taken,
  take_loop n taken (of_list items) = of_list (firstn (Z.to_nat (n - taken)) items).
Proof.
  induction items as [|v items IH]; intros taken; apply gen_ext; intros w; simpl.
  - now rewrite firstn_nil.
  - destruct (Z.leb_spec n taken) as [Hle|Hlt].
    + replace (Z.to_nat (n - taken)) with 0%nat by lia. reflexivity.
    + replace (Z.to_nat (n - taken)) with (S (Z.to_nat (n - (taken + 1)))) by lia.
      simpl. now rewrite IH.
Qed.

Lemma take_loop_outputs (n : Z) (g : Gen) : forall taken w,
  fst (drain (take_loop n taken g) w) =
  firstn (Z.to_nat (n - taken)) (fst (drain g w)).
Proof.
  induction g as [step IH] using Gen_induction. intros taken w. simpl.
  specialize (IH w). destruct (step w) as [w'|e w'|v w' k]; simpl in *.
  - now rewrite firstn_nil.
  - now rewrite firstn_nil.
  - destruct (Z.leb_spec n taken) as [Hle|Hlt].
    + replace (Z.to_nat (n - taken)) with 0%nat by lia.
      destruct (drain k w'); reflexivity.
    + replace (Z.to_nat (n - taken)) with (S (Z.to_nat (n - (taken + 1)))) by lia.
      specialize (IH (taken + 1) w').
      destruct (drain (take_loop n (taken + 1) k) w'), (drain k w'). simpl in *.
      now rewrite IH.
Qed.

Lemma take_loop_logged (n : Z) (items : list Value) : forall taken w,
  drain (take_loop n taken (logged_source items)) w =
  (firstn (Z.to_nat (n - taken)) items,
   (Ok tt, mkWorld (heap w)
             (log w ++ map EvProduce (firstn (S (Z.to_nat (n - taken))) items)))).
Proof.
  induction items as [|v items IH]; intros taken w; simpl.
  - rewrite firstn_nil, app_nil_r. destruct w; reflexivity.
  - destruct (Z.leb_spec n taken) as [Hle|Hlt].
    + replace (Z.to_nat (n - taken)) with 0%nat by lia. simpl.
      destruct items; reflexivity.
    + replace (Z.to_nat (n - taken)) with (S (Z.to_nat (n - (taken + 1)))) by lia.
      rewrite IH. simpl. rewrite <- app_assoc. reflexivity.
Qed.

(** [take(n)] yields exactly the first [n] elements of its input, whatever
    the input generator and the world. *)
Lemma take_yields_first_n (n : Z) (g : Gen) (w : World) :
  fst (drain (BuildTakeRule n (SrcGen g)) w) =
  firstn (Z.to_nat n) (fst (drain g w)).
Proof.
  unfold BuildTakeRule. rewrite for_of_gen, take_loop_outputs.
  now rewrite Z.sub_0_r.
Qed.

(** Driven to its end over a source with more than [n] elements, [take(n)]
    asks the source for [n + 1] of them: the test [taken >= n] comes after
    the pull of the next value. *)
Lemma take_requests_one_more (n : Z) (items : list Value) (w : World) :
  drain (BuildTakeRule n (SrcGen (logged_source items))) w =
  (firstn (Z.to_nat n) items,
   (Ok tt, mkWorld (heap w)
             (log w ++ map EvProduce (firstn (S (Z.to_nat n)) items)))).
Proof.
  unfold BuildTakeRule. rewrite for_of_gen, take_loop_logged.
  now rewrite Z.sub_0_r.
Qed.

(** C2 on the code.  Driven to its end over a one-shot source, [take(n)]
    yields the first [n] elements, as the specification says, but has then
    asked the source for [n + 1] elements, where the specification says that
    no element beyond the [n]-th is requested: at [take(2)] over
    the source [1, 2, 3] the output is [[1, 2]] and the third element has
    been requested. *)
Theorem take_requests_element_beyond_n :
  (forall (n : Z) (items : list Value) (w : World),
     drain (BuildTakeRule n (SrcGen (logged_source items))) w =
     (firstn (Z.to_nat n) items,
      (Ok tt, mkWorld (heap w)
                (log w ++ map EvProduce (firstn (S (Z.to_nat n)) items))))) /\
  drain (BuildTakeRule 2 (SrcGen (logged_source [VNum 1; VNum 2; VNum 3])))
        (mkWorld ∅ []) =
  ([VNum 1; VNum 2],
   (Ok tt, mkWorld ∅ [EvProduce (VNum 1); EvProduce (VNum 2); EvProduce (VNum 3)])).
Proof.
  split.
  - exact take_requests_one_more.
  - reflexivity.
Qed.

(** ** flat *)

Lemma get_iterator_members (v : Value) :
  get_iterator (SrcValue v) =
  match members v with
  | Some items => Ok (of_list items)
  | None => Err (TypeError "not iterable")
  end.
Proof. destruct v; reflexivity. Qed.

Lemma members_group (g : Group) : members (group_value g) = Some (group_members g).
Proof. destruct g; reflexivity. Qed.

Lemma yield_star_of_list (items : list Value) (rest : Gen) (w : World) :
  next (yield_star (of_list items) rest) w =
  match items with
  | [] => next rest w
  | v :: items' => SYield v w (yield_star (of_list items') rest)
  end.
Proof. destruct items; reflexivity. Qed.

Lemma yield_star_of_list_app (items rest : list Value) :
  yield_star (of_list items) (of_list rest) = of_list (items ++ rest).
Proof.
  induction items as [|v items IH]; apply gen_ext; intros w;
    rewrite yield_star_of_list; simpl; [reflexivity|]. now rewrite IH.
Qed.

Lemma drain_yield_star_of_list (items : list Value) (rest : Gen) (w : World) :
  drain (yield_star (of_list items) rest) w =
  (items ++ fst (drain rest w), snd (drain rest w)).
Proof.
  induction items as [|v items IH].
  - destruct rest as [step]. simpl. destruct (step w) as [?|? ?|? ? k]; try reflexivity.
    destruct (drain k w0); reflexivity.
  - simpl. simpl in IH. rewrite IH. reflexivity.
Qed.

Lemma still_expanded_nil {A : Type} (n flattened : Z) :
  still_expanded n flattened (@nil A) = [].
Proof. unfold still_expanded. destruct (n <? 0); [reflexivity|apply firstn_nil]. Qed.

Lemma still_expanded_stop {A : Type} (n flattened : Z) (l : list A) :
  (0 <=? n) && (n <=? flattened) = true -> still_expanded n flattened l = [].
Proof.
  intros H. apply andb_true_iff in H as [H1 H2].
  apply Z.leb_le in H1, H2. unfold still_expanded.
  destruct (Z.ltb_spec n 0); [lia|].
  replace (Z.to_nat (n - flattened)) with 0%nat by lia. reflexivity.
Qed.

Lemma still_expanded_go {A : Type} (n flattened : Z) (x : A) (l : list A) :
  (0 <=? n) && (n <=? flattened) = false ->
  still_expanded n flattened (x :: l) = x :: still_expanded n (flattened + 1) l.
Proof.
  intros H. apply andb_false_iff in H. unfold still_expanded.
  destruct (Z.ltb_spec n 0); [reflexivity|].
  destruct H as [H|H]; [apply Z.leb_gt in H; lia|]. apply Z.leb_gt in H.
  replace (Z.to_nat (n - flattened)) with (S (Z.to_nat (n - (flattened + 1)))) by lia.
  reflexivity.
Qed.

Lemma flat_loop_step (n flattened : Z) (g : Gen) (w : World) :
  next (flat_loop n flattened g) w =
  match next g w with
  | SDone w' => SDone w'
  | SThrow e w' => SThrow e w'
  | SYield val w' k =>
      if (0 <=? n) && (n <=? flattened) then SDone w'
      else
        match get_iterator (SrcValue val) with
        | Err e => SThrow e w'
        | Ok inner => next (yield_star inner (flat_loop n (flattened + 1) k)) w'
        end
  end.
Proof. destruct g; reflexivity. Qed.

Lemma drain_step (g : Gen) (w : World) :
  drain g w =
  match next g w with
  | SDone w' => ([], (Ok tt, w'))
  | SThrow e w' => ([], (Err e, w'))
  | SYield val w' k => let (vals, r) := drain k w' in (val :: vals, r)
  end.
Proof. destruct g; reflexivity. Qed.

Lemma drain_fst_step (g : Gen) (w : World) :
  fst (drain g w) =
  match next g w with
  | SYield val w' k => val :: fst (drain k w')
  | _ => []
  end.
Proof.
  rewrite drain_step. destruct (next g w) as [?|? ?|v w' k]; try reflexivity.
  destruct (drain k w'); reflexivity.
Qed.

Lemma flat_loop_of_list (n : Z) (groups : list Group) : forall flattened,
  flat_loop n flattened (of_list (map group_value groups)) =
  of_list (concat (map group_members (still_expanded n flattened groups))).
Proof.
  induction groups as [|g groups IH]; intros flattened; apply gen_ext; intros w.
  - rewrite still_expanded_nil. reflexivity.
  - rewrite flat_loop_step. cbn [map of_list next].
    destruct ((0 <=? n) && (n <=? flattened)) eqn:E.
    + rewrite still_expanded_stop by assumption. reflexivity.
    + rewrite still_expanded_go by assumption.
      rewrite get_iterator_members, members_group, IH, yield_star_of_list_app.
      reflexivity.
Qed.

Lemma flat_loop_outputs (n : Z) (g : Gen) : forall flattened w,
  fst (drain (flat_loop n flattened g) w) =
  expand (still_expanded n flattened (fst (drain g w))).
Proof.
  induction g as [step IH] using Gen_induction. intros flattened w.
  rewrite (drain_fst_step (MkGen step)), drain_fst_step, flat_loop_step.
  cbn [next]. specialize (IH w).
  destruct (step w) as [w'|e w'|v w' k]; cbn [step_all] in IH.
  - now rewrite still_expanded_nil.
  - now rewrite still_expanded_nil.
  - destruct ((0 <=? n) && (n <=? flattened)) eqn:E.
    + now rewrite still_expanded_stop.
    + rewrite still_expanded_go by assumption. cbn [expand].
      rewrite get_iterator_members.
      destruct (members v) as [items|]; [|reflexivity].
      rewrite <- IH, <- drain_fst_step, drain_yield_star_of_list. reflexivity.
Qed.

(** C3. [flat(n)] with a non-negative [n] expands the first [n] groups of its
    input, each one completely and in order, and is then finished: the
    remaining groups appear nowhere in the output.  Without [n] every group
    is expanded.  Over an array of groups the stage is the iterator of the
    concatenation; over any input generator its output is the expansion of
    the first [n] (or of all) yielded values. *)
Theorem flat_expands_first_n_groups :
  (forall (m : nat) (groups : list Group),
     BuildFlatRule (Some (Z.of_nat m)) (array_source (map group_value groups)) =
     of_list (concat (map group_members (firstn m groups)))) /\
  (forall (groups : list Group),
     BuildFlatRule None (array_source (map group_value groups)) =
     of_list (concat (map group_members groups))) /\
  (forall (m : nat) (g : Gen) (w : World),
     fst (drain (BuildFlatRule (Some (Z.of_nat m)) (SrcGen g)) w) =
     expand (firstn m (fst (drain g w)))) /\
  (forall (g : Gen) (w : World),
     fst (drain (BuildFlatRule None (SrcGen g)) w) = expand (fst (drain g w))).
Proof.
  assert (Hlim : forall (A : Type) (m : nat) (l : list A),
            still_expanded (Z.of_nat m) 0 l = firstn m l).
  { intros A m l. unfold still_expanded.
    destruct (Z.ltb_spec (Z.of_nat m) 0); [lia|].
    now rewrite Z.sub_0_r, Nat2Z.id. }
  unfold BuildFlatRule. repeat split.
  - intros m groups. cbn [default from_option id]. now rewrite for_of_array, flat_loop_of_list, Hlim.
  - intros groups. cbn [default from_option id]. now rewrite for_of_array, flat_loop_of_list.
  - intros m g w. cbn [default from_option id]. now rewrite for_of_gen, flat_loop_outputs, Hlim.
  - intros g w. cbn [default from_option id]. now rewrite for_of_gen, flat_loop_outputs.
Qed.

(** ** where *)

Lemma where_loop_step (fn : Callback bool) (i : Z) (g : Gen) (w : World) :
  next (where_loop fn i g) w =
  match next g w with
  | SDone w' => SDone w'
  | SThrow e w' => SThrow e w'
  | SYield val w' k =>
      match fn val i w' with
      | (Err e, w2) => SThrow e w2
      | (Ok true, w2) => SYield val w2 (where_loop fn (i + 1) k)
      | (Ok false, w2) => next (where_loop fn (i + 1) k) w2
      end
  end.
Proof. destruct g; reflexivity. Qed.

Lemma where_loop_logged p (items : list Value) : forall i w,
  drain (where_loop (observed_predicate p) i (logged_source items)) w =
  (map fst (List.filter (fun vi => p (fst vi) (snd vi) (heap w)) (indexed i items)),
   (Ok tt,
    mkWorld (heap w)
      (log w ++ flat_map (fun vi => [EvProduce (fst vi); EvCall (fst vi) (snd vi)])
                         (indexed i items)))).
Proof.
  induction items as [|v items IH]; intros i w.
  - simpl. rewrite app_nil_r. destruct w; reflexivity.
  - rewrite drain_step, where_loop_step. cbn [logged_source next].
    unfold observed_predicate at 1, observed at 1. cbn [heap emit indexed List.filter fst snd].
    destruct (p v i (heap w)) eqn:Hp.
    + rewrite IH. cbn [heap emit log map fst flat_map].
      rewrite <- !app_assoc. reflexivity.
    + rewrite <- drain_step, IH. cbn [heap emit log map fst flat_map].
      rewrite <- !app_assoc. reflexivity.
Qed.

Lemma where_loop_array p (items : list Value) : forall i w,
  drain (where_loop (observed_predicate p) i (of_list items)) w =
  (map fst (List.filter (fun vi => p (fst vi) (snd vi) (heap w)) (indexed i items)),
   (Ok tt,
    mkWorld (heap w)
      (log w ++ map (fun vi => EvCall (fst vi) (snd vi)) (indexed i items)))).
Proof.
  induction items as [|v items IH]; intros i w.
  - simpl. rewrite app_nil_r. destruct w; reflexivity.
  - rewrite drain_step, where_loop_step. cbn [of_list next].
    unfold observed_predicate at 1, observed at 1. cbn [heap emit indexed List.filter fst snd].
    destruct (p v i (heap w)) eqn:Hp.
    + rewrite IH. cbn [heap emit log map fst].
      rewrite <- !app_assoc. reflexivity.
    + rewrite <- drain_step, IH. cbn [heap emit log map fst].
      rewrite <- !app_assoc. reflexivity.
Qed.

Lemma where_loop_run (fn : Callback bool) (items : list Value) : forall i w,
  drain (where_loop fn i (of_list items)) w = where_run fn i items w.
Proof.
  induction items as [|v items IH]; intros i w; [reflexivity|].
  rewrite drain_step, where_loop_step. cbn [of_list next where_run].
  destruct (fn v i w) as [[[|]|e] w2]; [| |reflexivity].
  - rewrite IH. reflexivity.
  - rewrite <- drain_step, IH. destruct (where_run fn (i + 1) items w2); reflexivity.
Qed.

(** C6. [where(p)] yields an element, unchanged, exactly when [p] answers
    true on it; [p] is invoked once per input element, in input order, and
    the index it receives is the number of elements pulled from the input
    before, that is the position of the element in the input, whatever the
    earlier answers were.  This holds of any callback [fn], which may have
    effects or throw (first equation), and reads as follows for a predicate
    [p] without effects, whose invocations and those of the source are
    reported (second and third equations). *)
Theorem where_filters_by_input_position
    (fn : Callback bool)
    (p : Value -> Z -> gmap loc (gmap string Value) -> bool)
    (items : list Value) (w : World) :
  drain (BuildWhereRule fn (array_source items)) w = where_run fn 0 items w /\
  drain (BuildWhereRule (observed_predicate p) (SrcGen (logged_source items))) w =
  (map fst (List.filter (fun vi => p (fst vi) (snd vi) (heap w)) (indexed 0 items)),
   (Ok tt,
    mkWorld (heap w)
      (log w ++ flat_map (fun vi => [EvProduce (fst vi); EvCall (fst vi) (snd vi)])
                         (indexed 0 items)))) /\
  drain (BuildWhereRule (observed_predicate p) (array_source items)) w =
  (map fst (List.filter (fun vi => p (fst vi) (snd vi) (heap w)) (indexed 0 items)),
   (Ok tt,
    mkWorld (heap w)
      (log w ++ map (fun vi => EvCall (fst vi) (snd vi)) (indexed 0 items)))).
Proof.
  unfold BuildWhereRule. rewrite for_of_gen, !for_of_array. split; [|split].
  - apply where_loop_run.
  - apply where_loop_logged.
  - apply where_loop_array.
Qed.

(** ** select *)

Lemma get_field_ok (val : Value) (field : string) (w : World) :
  nullish val = false -> exists x, get_field val field w = Ok x.
Proof. destruct val; simpl; try discriminate; intros _; eauto. Qed.

Lemma get_field_record (l : loc) (r : gmap string Value) (field : string) (w : World) :
  heap w !! l = Some r -> get_field (VRef l) field w = Ok (read_record r field).
Proof. intros Hl. simpl. now rewrite Hl. Qed.

Lemma get_field_insert_other (obj : loc) (o : gmap string Value) (val : Value)
    (field : string) (w : World) :
  val <> VRef obj ->
  get_field val field (mkWorld (<[obj := o]> (heap w)) (log w)) = get_field val field w.
Proof.
  intros Hne. destruct val; try reflexivity. simpl.
  rewrite lookup_insert_ne by congruence. reflexivity.
Qed.

Lemma get_field_set_other (obj : loc) (val : Value) (f field : string) (x : Value)
    (w : World) :
  val <> VRef obj ->
  get_field val field (set_field obj f x w) = get_field val field w.
Proof.
  intros Hne. unfold set_field. case_bool_decide; [reflexivity|].
  now apply get_field_insert_other.
Qed.

Lemma inherited_undefined (field : string) :
  host_defines field = false -> inherited field = VUndefined.
Proof.
  unfold host_defines, inherited. intros H.
  apply orb_false_elim in H as [H1 H2]. now rewrite H1, H2.
Qed.

Lemma stored_names_cons (f : string) (names : list string) :
  stored_names (f :: names) =
  if bool_decide (f = "__proto__"%string) then stored_names names
  else f :: stored_names names.
Proof.
  unfold stored_names. case_bool_decide.
  - now rewrite filter_cons_False by auto.
  - now rewrite filter_cons_True by auto.
Qed.

Lemma copy_fields_spec (obj : loc) (val : Value) (names : list string) :
  nullish val = false -> val <> VRef obj ->
  forall (w : World) (o : gmap string Value),
    heap w !! obj = Some o ->
    exists o',
      copy_fields obj val names w = (Ok tt, mkWorld (<[obj := o']> (heap w)) (log w)) /\
      dom o' = dom o ∪ list_to_set (stored_names names) /\
      (forall f, f ∈ stored_names names ->
         exists x, get_field val f w = Ok x /\ o' !! f = Some x) /\
      (forall f, f ∉ stored_names names -> o' !! f = o !! f).
Proof.
  intros Hnull Hne. induction names as [|f names IH]; intros w o Ho.
  - exists o. simpl. repeat split.
    + rewrite insert_id by assumption. destruct w; reflexivity.
    + set_solver.
    + intros f Hf. inversion Hf.
  - cbn [copy_fields]. destruct (get_field_ok val f w Hnull) as [x Hx]. rewrite Hx.
    rewrite stored_names_cons. unfold set_field. case_bool_decide as Hproto.
    + apply IH, Ho.
    + destruct (IH (mkWorld (<[obj := <[f := x]> (default ∅ (heap w !! obj))]> (heap w))
                      (log w)) (<[f := x]> o))
        as (o' & Hcopy & Hdom & Hin & Hout).
      { simpl. rewrite Ho. simpl. apply lookup_insert_eq. }
      exists o'. rewrite Hcopy. simpl. rewrite insert_insert_eq. repeat split.
      * rewrite Hdom, dom_insert_L. set_solver.
      * intros f' Hf'. destruct (decide (f' ∈ stored_names names)) as [Hrest|Hrest].
        -- destruct (Hin f' Hrest) as (x' & Hget & Hlook).
           exists x'. rewrite get_field_insert_other in Hget by assumption. auto.
        -- apply elem_of_cons in Hf' as [->|Hf']; [|contradiction].
           exists x. split; [assumption|].
           rewrite Hout by assumption. apply lookup_insert_eq.
      * intros f' Hf'. apply not_elem_of_cons in Hf' as [Hf1 Hf2].
        rewrite Hout by assumption. now apply lookup_insert_ne.
Qed.

Lemma select_fields_loop_step (names : list string) (g : Gen) (w : World) :
  next (select_fields_loop names g) w =
  match next g w with
  | SDone w' => SDone w'
  | SThrow e w' => SThrow e w'
  | SYield val w' k =>
      let (obj, w1) := alloc_object w' in
      match copy_fields obj val names w1 with
      | (Err e, w2) => SThrow e w2
      | (Ok _, w2) => SYield (VRef obj) w2 (select_fields_loop names k)
      end
  end.
Proof. destruct g; reflexivity. Qed.

Lemma select_field_loop_step (name : string) (g : Gen) (w : World) :
  next (select_field_loop name g) w =
  match next g w with
  | SDone w' => SDone w'
  | SThrow e w' => SThrow e w'
  | SYield val w' k =>
      match get_field val name w' with
      | Err e => SThrow e w'
      | Ok x => SYield x w' (select_field_loop name k)
      end
  end.
Proof. destruct g; reflexivity. Qed.

(** One step of [select] with an array of names over an element that is a
    record [r] of the heap: a record that did not exist is yielded; it has
    the requested names but [__proto__] as its keys, each with what the
    element reads under that name. *)
Lemma select_fields_yield
    (names : list string) (g : Gen) (w : World) (l : loc) (r : gmap string Value)
    (w' : World) (k : Gen) :
  next g w = SYield (VRef l) w' k ->
  heap w' !! l = Some r ->
  exists (obj : loc) (o : gmap string Value),
    next (select_fields_loop names g) w =
    SYield (VRef obj) (mkWorld (<[obj := o]> (heap w')) (log w'))
           (select_fields_loop names k) /\
    (obj ∉ dom (heap w')) /\
    dom o = list_to_set (stored_names names) /\
    (forall f, f ∈ stored_names names -> o !! f = Some (read_record r f)) /\
    (forall f, f ∉ stored_names names -> o !! f = None).
Proof.
  intros Hnext Hl.
  pose proof (is_fresh (dom (heap w'))) as Hfresh.
  set (obj := fresh (dom (heap w'))) in *.
  assert (Hne : VRef l <> VRef obj).
  { intros [= E]. apply Hfresh. rewrite <- E. apply elem_of_dom. eauto. }
  destruct (copy_fields_spec obj (VRef l) names eq_refl Hne
              (mkWorld (<[obj := ∅]> (heap w')) (log w')) ∅)
    as (o & Hcopy & Hdom & Hin & Hout).
  { simpl. apply lookup_insert_eq. }
  exists obj, o. simpl in Hcopy. rewrite insert_insert_eq in Hcopy.
  repeat split.
  - rewrite select_fields_loop_step, Hnext. unfold alloc_object. fold obj.
    now rewrite Hcopy.
  - assumption.
  - rewrite Hdom. set_solver.
  - intros f Hf. destruct (Hin f Hf) as (x & Hget & Hlook).
    rewrite get_field_insert_other, (get_field_record l r) in Hget by assumption.
    congruence.
  - intros f Hf. rewrite (Hout f Hf). apply lookup_empty.
Qed.




(** ** extend and pack *)

Lemma mutate_rules (a b : loc) (ms : list (bool * Stage)) : forall s,
  separate s a b ->
  rules_of (mutate a b ms s) a =
    rules_of s a ++ map build_rule (map snd (calls_on true ms)) /\
  rules_of (mutate a b ms s) b =
    rules_of s b ++ map build_rule (map snd (calls_on false ms)).
Proof.
  induction ms as [|[on_a st] ms IH]; intros s Hsep; simpl.
  - now rewrite !app_nil_r.
  - rewrite add_stage_pushrule.
    pose proof (separate_sym _ _ _ Hsep) as Hsep'.
    destruct on_a; simpl.
    + destruct (IH (snd (_pushrule a (build_rule st) s))) as [Ha Hb].
      { now apply pushrule_separate. }
      rewrite Ha, Hb, pushrule_rules_same, pushrule_rules_other, <- app_assoc;
        eauto using separate_is_query.
    + destruct (IH (snd (_pushrule b (build_rule st) s))) as [Ha Hb].
      { now apply pushrule_separate. }
      rewrite Ha, Hb, pushrule_rules_same, pushrule_rules_other, <- app_assoc;
        eauto using separate_is_query.
Qed.

Lemma calls_on_idem (on_a : bool) (ms : list (bool * Stage)) :
  calls_on on_a (calls_on on_a ms) = calls_on on_a ms.
Proof.
  unfold calls_on. induction ms as [|m ms IH]; simpl; [reflexivity|].
  destruct (Bool.eqb (fst m) on_a) eqn:E; simpl; rewrite ?E, IH; reflexivity.
Qed.

(** C4. [extend()] on a builder [a] of the store returns another builder
    [b], whose stage list holds exactly one stage: the transformer compiled
    from [a] at the time of the call.  Afterwards, whatever chaining calls
    are made on the two builders and in whatever order, each builder runs as
    if only the calls made on itself had happened: on every source and in
    every world, its output is the one obtained when the calls on the other
    builder are left out. *)
Theorem extend_isolates_builders
    (s : Store) (a : loc) (ms : list (bool * Stage)) (S : Source) (w : World) :
  is_query s a ->
  let b := fst (extend a s) in
  let s1 := snd (extend a s) in
  b <> a /\
  rules_of s1 b = [compile a s] /\
  rules_of (mutate a b ms s1) b =
    compile a s :: map build_rule (map snd (calls_on false ms)) /\
  collect (on a (Some S) (mutate a b ms s1)) w =
    collect (on a (Some S) (mutate a b (calls_on true ms) s1)) w /\
  collect (on b (Some S) (mutate a b ms s1)) w =
    collect (on b (Some S) (mutate a b (calls_on false ms) s1)) w.
Proof.
  intros Ha b s1. destruct (extend_spec a s Ha) as (Hsep & Hb & Hsame).
  fold b s1 in Hsep, Hb, Hsame.
  destruct (mutate_rules a b ms s1 Hsep) as [Ra Rb].
  destruct (mutate_rules a b (calls_on true ms) s1 Hsep) as [Ra' _].
  destruct (mutate_rules a b (calls_on false ms) s1 Hsep) as [_ Rb'].
  rewrite calls_on_idem in Ra', Rb'.
  repeat split.
  - destruct Hsep as (a1 & a2 & H1 & H2 & Hne & _). intros E. rewrite E in H2. congruence.
  - assumption.
  - now rewrite Rb, Hb.
  - unfold on, compile. now rewrite Ra, Ra'.
  - unfold on, compile. now rewrite Rb, Rb'.
Qed.

Lemma extend_isolates_builders_witness :
  let s := snd (builder [StTake 1] empty_store) in
  let a := fst (builder [StTake 1] empty_store) in
  let b := fst (extend a s) in
  let s1 := snd (extend a s) in
  let ms := [(false, StSelect (FieldName "v")); (true, StSkip 1);
             (false, StMap (pure_callback (fun v _ => v)))] in
  is_query s a /\
  rules_of s1 b = [compile a s] /\
  forall w,
    collect (on a (Some (array_source [VNum 1; VNum 2])) (mutate a b ms s1)) w =
    collect (on a (Some (array_source [VNum 1; VNum 2]))
               (mutate a b (calls_on true ms) s1)) w.
Proof.
  intros s a b s1 ms.
  assert (Ha : is_query s a) by apply builder_is_query.
  split; [exact Ha|]. split.
  - apply (extend_isolates_builders s a ms (SrcValue VNull) (mkWorld ∅ []) Ha).
  - intros w.
    apply (extend_isolates_builders s a ms (array_source [VNum 1; VNum 2]) w Ha).
Defined.

Lemma pack_rules (q : loc) (s : Store) :
  rules_of (snd (pack q s)) q =
  match rules_of s q with
  | [] => []
  | _ :: _ => [compile q s]
  end.
Proof.
  unfold pack. destruct (rules_of s q) as [|r rs] eqn:E; simpl.
  - assumption.
  - unfold rules_of. simpl. rewrite !lookup_insert_eq. reflexivity.
Qed.

(** C5, as the code has it.  [pack()] returns the builder it was called on.
    When the builder has at least one stage, its stage list becomes the
    one-element list holding what [compile()] returned; when it has none,
    the list stays empty.  In both cases [compile()] returns afterwards the
    transformer it returned before, so every source gives the same output. *)
Theorem pack_collapses_nonempty_list (q : loc) (s : Store) :
  fst (pack q s) = q /\
  rules_of (snd (pack q s)) q =
    match rules_of s q with
    | [] => []
    | _ :: _ => [compile q s]
    end /\
  compile q (snd (pack q s)) = compile q s /\
  forall (S : option Source) (w : World),
    collect (on q S (snd (pack q s))) w = collect (on q S s) w.
Proof.
  assert (Hc : compile q (snd (pack q s)) = compile q s).
  { unfold compile at 1. rewrite pack_rules. unfold compile.
    destruct (rules_of s q); reflexivity. }
  repeat split.
  - unfold pack. destruct (0 <? _); reflexivity.
  - apply pack_rules.
  - exact Hc.
  - intros S w. unfold on. now rewrite Hc.
Qed.

(** C5 as stated fails on the builder without stages: after [pack()] its
    stage list does not have length 1. *)
Lemma pack_empty_builder_stays_empty :
  let q := fst (new_query empty_store) in
  let s := snd (new_query empty_store) in
  length (rules_of (snd (pack q s)) q) <> 1%nat.
Proof. vm_compute. discriminate. Qed.

(** ** build and the unbound executor *)

Lemma build_rule_library_rule (st : Stage) : library_rule (build_rule st).
Proof.
  split; [apply build_rule_iterates_input|apply build_rule_propagates_failure].
Qed.

Lemma propagates_failure_gen (r : QueryRule) (e : Error) :
  propagates_failure r -> r (SrcGen (fails_with e)) = fails_with e.
Proof. intros H. apply gen_ext. intros w. apply H. Qed.

Lemma pipeline_fails (rules : list QueryRule) (e : Error) :
  Forall library_rule rules ->
  pipeline rules (SrcGen (fails_with e)) = SrcGen (fails_with e).
Proof.
  induction 1 as [|r rules [_ Hr] _ IH]; simpl; [reflexivity|].
  now rewrite (propagates_failure_gen r e Hr).
Qed.

Lemma compile_rules_library_rule (rules : list QueryRule) :
  Forall library_rule rules -> library_rule (compile_rules rules).
Proof.
  intros H. split.
  - intros it. rewrite !compile_rules_pipeline. symmetry. apply pipeline_iterate.
    eapply Forall_impl; [exact H|]. now intros r [Hr _].
  - intros e w. rewrite compile_rules_pipeline, pipeline_fails by assumption.
    reflexivity.
Qed.

Lemma library_rule_unbound (r : QueryRule) :
  library_rule r -> r (SrcValue VNull) = fails_with not_iterable.
Proof.
  intros [Hit Hfail]. rewrite Hit.
  rewrite (iterate_not_iterable (SrcValue VNull) not_iterable) by reflexivity.
  now apply propagates_failure_gen.
Qed.

(** C8. [build()] is [on()] without argument: the executor it returns has
    no source ([null]).  Nothing fails when it is made: bound to a source
    with [on(source)] it runs as the executor made with that source.  Left
    unbound, every terminal operation fails at its first pull with the
    error of a value that is not iterable, before any callback is invoked
    and without any effect; so does collecting from an executor bound to a
    value that is not iterable. *)
Theorem build_fails_on_first_pull
    (s : Store) (q : loc)
    (fn1 : Value -> World -> Result unit * World) (fn2 : Callback unit)
    (fn3 : option (Callback Awaitable)) (items : list Value) (w : World) :
  Forall library_rule (rules_of s q) ->
  build q s = on q None s /\
  iterable (build q s) = SrcValue VNull /\
  exec_on (build q s) (array_source items) = on q (Some (array_source items)) s /\
  next (exec_iterator (build q s)) w = SThrow not_iterable w /\
  collect (build q s) w = (Err not_iterable, w) /\
  foreach fn1 (build q s) w = (Err not_iterable, w) /\
  iforeach fn2 (build q s) w = (Err not_iterable, w) /\
  acollect fn3 (build q s) w = (Err not_iterable, w) /\
  (forall v, members v = None ->
     collect (on q (Some (SrcValue v)) s) w = (Err not_iterable, w)).
Proof.
  intros H.
  assert (Hc : library_rule (compile q s)).
  { now apply compile_rules_library_rule. }
  assert (Hit : exec_iterator (build q s) = fails_with not_iterable).
  { rewrite exec_iterator_query. simpl. now apply library_rule_unbound. }
  repeat split.
  - now rewrite Hit.
  - unfold collect. now rewrite Hit.
  - unfold foreach. now rewrite Hit.
  - unfold iforeach. now rewrite Hit.
  - unfold acollect. now rewrite Hit.
  - intros v Hv. unfold collect. rewrite exec_iterator_query.
    destruct Hc as [Hin Hfail].
    assert (E : query (on q (Some (SrcValue v)) s)
                  (iterable (on q (Some (SrcValue v)) s)) = fails_with not_iterable).
    { unfold on, new_QueryExecutor. cbn [query iterable].
      destruct v; try discriminate Hv;
        rewrite Hin, (iterate_not_iterable _ not_iterable) by reflexivity;
        now apply propagates_failure_gen. }
    now rewrite E.
Qed.

Lemma build_fails_on_first_pull_witness :
  let b := builder [StWhere (pure_callback (fun _ _ => true)); StTake 1] empty_store in
  Forall library_rule (rules_of (snd b) (fst b)) /\
  collect (build (fst b) (snd b)) (mkWorld ∅ []) = (Err not_iterable, mkWorld ∅ []).
Proof.
  intros b.
  assert (H : Forall library_rule (rules_of (snd b) (fst b))).
  { subst b. rewrite builder_rules. repeat constructor; apply build_rule_library_rule. }
  split; [exact H|].
  apply (build_fails_on_first_pull (snd b) (fst b)
           (fun _ w => (Ok tt, w)) (fun _ _ w => (Ok tt, w)) None [] (mkWorld ∅ []) H).
Defined.

(** ** acollect *)

Lemma acollect_loop_step (fn : Callback Awaitable) (i : Z) (acc : list Awaitable)
    (g : Gen) (w : World) :
  acollect_loop fn i acc g w =
  match next g w with
  | SDone w' => (Ok acc, w')
  | SThrow e w' => (Err e, w')
  | SYield val w' k =>
      match fn val i w' with
      | (Err e, w2) => (Err e, w2)
      | (Ok p, w2) => acollect_loop fn (i + 1) (acc ++ [p]) k w2
      end
  end.
Proof. destruct g; reflexivity. Qed.

Lemma yield_star_step (inner rest : Gen) (w : World) :
  next (yield_star inner rest) w =
  match next inner w with
  | SDone w' => next rest w'
  | SThrow e w' => SThrow e w'
  | SYield v w' k => SYield v w' (yield_star k rest)
  end.
Proof. destruct inner; reflexivity. Qed.

Lemma logged_source_app (l1 l2 : list Value) (rest : Gen) :
  yield_star (logged_source (l1 ++ l2)) rest =
  yield_star (logged_source l1) (yield_star (logged_source l2) rest).
Proof.
  induction l1 as [|v l1 IH]; apply gen_ext; intros w; rewrite !yield_star_step.
  - cbn [app logged_source next]. now rewrite yield_star_step.
  - cbn [app logged_source next]. now rewrite IH.
Qed.

Lemma acollect_loop_prefix
    (launch : Value -> Z -> gmap loc (gmap string Value) -> Result Awaitable)
    (pre : list Value) : forall (i : Z) (acc : list Awaitable) (tail : Gen) (w : World),
  (forall (j : nat) v, pre !! j = Some v ->
     exists p, launch v (i + Z.of_nat j) (heap w) = Ok p) ->
  exists ps,
    Forall2 (fun vi p => launch (fst vi) (snd vi) (heap w) = Ok p) (indexed i pre) ps /\
    acollect_loop (observed launch) i acc (yield_star (logged_source pre) tail) w =
    acollect_loop (observed launch) (i + Z.of_nat (length pre)) (acc ++ ps) tail
      (mkWorld (heap w) (log w ++ interleaved i pre)).
Proof.
  induction pre as [|v pre IH]; intros i acc tail w H.
  - exists []. split; [constructor|].
    rewrite acollect_loop_step, yield_star_step. cbn [logged_source next].
    rewrite <- acollect_loop_step. unfold interleaved. simpl.
    rewrite !app_nil_r, Z.add_0_r. destruct w; reflexivity.
  - destruct (H 0%nat v eq_refl) as [p Hp]. rewrite Z.add_0_r in Hp.
    destruct (IH (i + 1) (acc ++ [p]) tail
                (emit (EvCall v i) (emit (EvProduce v) w))) as (ps & Hall & Hrun).
    { intros j v' Hj. destruct (H (S j) v' Hj) as [p' Hp']. exists p'.
      cbn [heap emit]. rewrite <- Hp'. f_equal. lia. }
    exists (p :: ps). split.
    + constructor; assumption.
    + rewrite acollect_loop_step, yield_star_step. cbn [logged_source next].
      unfold observed at 1. change (heap (emit (EvProduce v) w)) with (heap w).
      rewrite Hp, Hrun.
      cbn [heap emit log length indexed]. unfold interleaved.
      cbn [indexed flat_map fst snd].
      rewrite <- !app_assoc. cbn [app].
      replace (i + 1 + Z.of_nat (length pre)) with (i + Z.of_nat (S (length pre))) by lia.
      reflexivity.
Qed.

(** C10. [acollect(fn)] pulls every value of the pipeline and invokes [fn]
    on each of them, in order, before it hands anything to [Promise.all]:
    when it returns the aggregate, the source has produced all its values
    and [fn] has been invoked on all of them.  When [fn] throws on a value,
    or when the pipeline throws instead of producing one, [acollect] itself
    throws that error: it returns no aggregate, and nothing that comes after
    the failure is pulled or passed to [fn] (the rest of the pipeline, [rest],
    is never resumed). *)
Theorem acollect_throws_synchronously
    (launch : Value -> Z -> gmap loc (gmap string Value) -> Result Awaitable)
    (pre : list Value) (w : World) :
  (forall (j : nat) v, pre !! j = Some v ->
     exists p, launch v (Z.of_nat j) (heap w) = Ok p) ->
  (forall ex, exec_iterator ex = logged_source pre ->
     exists ps,
       Forall2 (fun vi p => launch (fst vi) (snd vi) (heap w) = Ok p) (indexed 0 pre) ps /\
       acollect (Some (observed launch)) ex w =
       (Ok (Promise_all ps), mkWorld (heap w) (log w ++ interleaved 0 pre))) /\
  (forall bad rest e ex,
     launch bad (Z.of_nat (length pre)) (heap w) = Err e ->
     exec_iterator ex = yield_star (logged_source (pre ++ [bad])) rest ->
     acollect (Some (observed launch)) ex w =
     (Err e, mkWorld (heap w)
               (log w ++ interleaved 0 pre ++
                [EvProduce bad; EvCall bad (Z.of_nat (length pre))]))) /\
  (forall e ex, exec_iterator ex = yield_star (logged_source pre) (fails_with e) ->
     acollect (Some (observed launch)) ex w =
     (Err e, mkWorld (heap w) (log w ++ interleaved 0 pre))).
Proof.
  intros Hpre.
  assert (Hpre' : forall (j : nat) v, pre !! j = Some v ->
            exists p, launch v (0 + Z.of_nat j) (heap w) = Ok p).
  { intros j v Hj. rewrite Z.add_0_l. eauto. }
  split; [|split]; [intros ex Hex|intros bad rest e ex Hbad Hex|intros e ex Hex];
    unfold acollect; cbn [default from_option id]; rewrite Hex.
  - destruct (acollect_loop_prefix launch pre 0 [] finished w Hpre')
      as (ps & Hall & Hrun).
    exists ps. split; [assumption|].
    rewrite <- (yield_star_finished (logged_source pre)), Hrun.
    rewrite acollect_loop_step. reflexivity.
  - rewrite logged_source_app.
    destruct (acollect_loop_prefix launch pre 0 []
                (yield_star (logged_source [bad]) rest) w Hpre')
      as (ps & Hall & Hrun).
    rewrite Hrun, acollect_loop_step, yield_star_step. cbn [logged_source next].
    unfold observed at 1. cbn [heap emit log]. rewrite Z.add_0_l, Hbad.
    unfold emit. cbn [heap log]. rewrite <- !app_assoc. reflexivity.
  - destruct (acollect_loop_prefix launch pre 0 [] (fails_with e) w Hpre')
      as (ps & Hall & Hrun).
    rewrite Hrun, acollect_loop_step. reflexivity.
Qed.

Lemma acollect_throws_synchronously_witness :
  acollect (Some (observed sample_launch))
    (mkExecutor identity_rule
       (SrcGen (logged_source [VNum 1; VNum 2; VNum 3; VNum 4])))
    (mkWorld ∅ []) =
  (Err (Thrown (VStr "three")),
   mkWorld ∅ [EvProduce (VNum 1); EvCall (VNum 1) 0;
              EvProduce (VNum 2); EvCall (VNum 2) 1;
              EvProduce (VNum 3); EvCall (VNum 3) 2]).
Proof.
  refine (proj1 (proj2 (acollect_throws_synchronously sample_launch
            [VNum 1; VNum 2] (mkWorld ∅ []) _))
            (VNum 3) (logged_source [VNum 4]) (Thrown (VStr "three")) _ _ _).
  - intros [|[|j]] v Hj; inversion Hj; eexists; reflexivity.
  - reflexivity.
  - reflexivity.
Defined.

(** ** acollect and the settlement of its results *)

Lemma array_from_step (g : Gen) (w : World) :
  array_from g w =
  match next g w with
  | SDone w' => (Ok [], w')
  | SThrow e w' => (Err e, w')
  | SYield val w' k =>
      match array_from k w' with
      | (Ok vals, w2) => (Ok (val :: vals), w2)
      | (Err e, w2) => (Err e, w2)
      end
  end.
Proof. destruct g; reflexivity. Qed.

Lemma acollect_loop_pure (f : Value -> Z -> Awaitable) (g : Gen) :
  forall i acc w vals w',
    array_from g w = (Ok vals, w') ->
    acollect_loop (pure_callback f) i acc g w =
    (Ok (acc ++ map (fun vi => f (fst vi) (snd vi)) (indexed i vals)), w').
Proof.
  induction g as [step IH] using Gen_induction. intros i acc w vals w' H.
  rewrite array_from_step in H. rewrite acollect_loop_step. cbn [next] in *.
  specialize (IH w). destruct (step w) as [w1|e w1|v w1 k]; cbn [step_all] in IH.
  - inversion H; subst. simpl. now rewrite app_nil_r.
  - discriminate.
  - destruct (array_from k w1) as [[vals'|e] w2] eqn:E; [|discriminate].
    inversion H; subst. unfold pure_callback at 1.
    rewrite (IH (i + 1) (acc ++ [f v i]) w1 vals' w' E).
    cbn [indexed map fst snd]. rewrite <- app_assoc. reflexivity.
Qed.

Lemma promise_state_app (l1 l2 : list Settlement) (p : nat) :
  promise_state (l1 ++ l2) p =
  match promise_state l1 p with
  | Pending => promise_state l2 p
  | st => st
  end.
Proof.
  induction l1 as [|[q r] l1 IH]; simpl; [reflexivity|].
  destruct (Nat.eqb p q); [destruct r; reflexivity|apply IH].
Qed.

Lemma awaited_false (inputs : list Awaitable) (p : nat) :
  awaited inputs p = false -> forall a, In a inputs -> awaits p a = false.
Proof.
  unfold awaited. intros H a Ha.
  destruct (awaits p a) eqn:E; [|reflexivity].
  rewrite <- H. symmetry. apply existsb_exists. eauto.
Qed.

Lemma awaited_true (inputs : list Awaitable) (p : nat) :
  In (Promise p) inputs -> awaited inputs p = true.
Proof.
  intros H. apply existsb_exists. exists (Promise p). split; [assumption|].
  simpl. apply Nat.eqb_refl.
Qed.

Lemma rejected_not_input (inputs : list Awaitable) (done : list Settlement) (q : nat)
    (e : Error) :
  no_rejection inputs done -> promise_state done q = Rejected e ->
  awaited inputs q = false.
Proof.
  intros Hno. induction done as [|[p r] done IH]; simpl; [discriminate|].
  destruct (Nat.eqb_spec q p) as [->|Hne].
  - destruct r as [v|e']; [discriminate|]. intros _. apply (Hno p e'). now left.
  - apply IH. intros p' e' Hin. apply (Hno p' e'). now right.
Qed.

Lemma fill_slot_after (inputs0 inputs : list Awaitable) (done : list Settlement)
    (p : nat) (v : Value) :
  no_rejection inputs0 done ->
  (forall a, In a inputs -> In a inputs0) ->
  fill p v inputs (map (slot_after done) inputs) =
  map (slot_after (done ++ [Settle p (Ok v)])) inputs.
Proof.
  intros Hno. induction inputs as [|a inputs IH]; intros Hsub; [reflexivity|].
  cbn [map fill]. rewrite IH by (intros; apply Hsub; now right). f_equal.
  destruct a as [x|q]; [reflexivity|]. cbn [slot_after awaits].
  rewrite promise_state_app. cbn [promise_state].
  destruct (promise_state done q) as [|x|e] eqn:E.
  - rewrite (Nat.eqb_sym p q). destruct (Nat.eqb q p); reflexivity.
  - reflexivity.
  - pose proof (rejected_not_input inputs0 done q e Hno E) as Hq.
    rewrite (awaited_true inputs0 q) in Hq by (apply Hsub; now left). discriminate.
Qed.

Lemma slot_after_other (inputs : list Awaitable) (done : list Settlement)
    (p : nat) (r : Result Value) :
  awaited inputs p = false ->
  map (slot_after (done ++ [Settle p r])) inputs = map (slot_after done) inputs.
Proof.
  intros H. apply map_ext_in. intros a Ha.
  pose proof (awaited_false inputs p H a Ha) as Hp.
  destruct a as [x|q]; [reflexivity|]. cbn [slot_after awaits] in *.
  rewrite promise_state_app. cbn [promise_state].
  rewrite (Nat.eqb_sym q p), Hp. destruct (promise_state done q); reflexivity.
Qed.

Lemma fill_complete (p : nat) (v : Value) (inputs : list Awaitable) :
  forall (slots : list (option Value)) (vs : list Value),
    all_values slots = Some vs -> fill p v inputs slots = slots.
Proof.
  induction inputs as [|a inputs IH]; intros slots vs H; [reflexivity|].
  destruct slots as [|[x|] slots]; cbn [fill]; try reflexivity.
  - cbn [all_values] in H. destruct (all_values slots) as [vs'|] eqn:E; [|discriminate].
    now rewrite (IH slots vs').
  - discriminate.
Qed.

Lemma no_rejection_app_l (inputs : list Awaitable) (l1 l2 : list Settlement) :
  no_rejection inputs (l1 ++ l2) -> no_rejection inputs l1.
Proof. intros H p e Hin. apply (H p e), in_or_app. now left. Qed.

Lemma settle_all_tracks (inputs0 : list Awaitable) (evs : list Settlement) :
  forall (done : list Settlement) (st : AllPromise),
    no_rejection inputs0 (done ++ evs) ->
    inputs st = inputs0 ->
    slots st = map (slot_after done) inputs0 ->
    outcome st = completion (slots st) ->
    inputs (settle_all st evs) = inputs0 /\
    slots (settle_all st evs) = map (slot_after (done ++ evs)) inputs0 /\
    outcome (settle_all st evs) = completion (slots (settle_all st evs)).
Proof.
  induction evs as [|ev evs IH]; intros done st Hno Hin Hslots Hout.
  - rewrite app_nil_r. auto.
  - cbn [settle_all fold_left]. fold (settle_all (all_step st ev) evs).
    replace (done ++ ev :: evs) with ((done ++ [ev]) ++ evs) in *
      by (rewrite <- app_assoc; reflexivity).
    pose proof (no_rejection_app_l _ _ _ Hno) as Hno1.
    pose proof (no_rejection_app_l _ _ _ Hno1) as Hno0.
    assert (Hrej : forall p e, ev = Settle p (Err e) -> awaited inputs0 p = false).
    { intros p e ->. apply (Hno1 p e), in_or_app. right. now left. }
    apply IH; try assumption; unfold all_step.
    + destruct (outcome st); [|assumption|assumption].
      destruct ev as [p [v|e]]; [assumption|].
      destruct (existsb (awaits p) (inputs st)); assumption.
    + destruct (outcome st) as [|vs|e] eqn:Eo.
      * destruct ev as [p [v|e]].
        -- cbn [slots]. rewrite Hin, Hslots.
           now apply (fill_slot_after inputs0 inputs0).
        -- rewrite Hin. fold (awaited inputs0 p). rewrite (Hrej p e eq_refl).
           rewrite Hslots. symmetry. apply slot_after_other, (Hrej p e eq_refl).
      * destruct ev as [p [v|e]].
        -- rewrite <- (fill_slot_after inputs0 inputs0 done p v) by auto.
           rewrite <- Hslots. symmetry. apply (fill_complete p v inputs0 _ vs).
           unfold completion in Hout. destruct (all_values (slots st)); congruence.
        -- rewrite Hslots. symmetry. apply slot_after_other, (Hrej p e eq_refl).
      * unfold completion in Hout. destruct (all_values (slots st)); discriminate.
    + destruct (outcome st) as [|vs|e] eqn:Eo; [|congruence|congruence].
      destruct ev as [p [v|e]]; [reflexivity|].
      rewrite Hin. fold (awaited inputs0 p). rewrite (Hrej p e eq_refl).
      congruence.
Qed.

Lemma all_values_fulfilled (schedule : list Settlement) (inputs : list Awaitable) :
  (forall p, awaited inputs p = true -> exists v, promise_state schedule p = Fulfilled v) ->
  all_values (map (slot_after schedule) inputs) = Some (map (resolved schedule) inputs).
Proof.
  induction inputs as [|a inputs IH]; intros H; [reflexivity|].
  cbn [map all_values].
  assert (Hrest : forall p, awaited inputs p = true ->
            exists v, promise_state schedule p = Fulfilled v).
  { intros p Hp. apply H. unfold awaited in *. cbn [existsb]. rewrite Hp.
    apply orb_true_r. }
  rewrite (IH Hrest). destruct a as [x|q]; [reflexivity|].
  destruct (H q) as [v Hv].
  { unfold awaited. cbn [existsb awaits]. now rewrite Nat.eqb_refl. }
  cbn [slot_after resolved]. now rewrite Hv.
Qed.

Lemma all_values_pending (schedule : list Settlement) (inputs : list Awaitable) (p : nat) :
  awaited inputs p = true -> promise_state schedule p = Pending ->
  all_values (map (slot_after schedule) inputs) = None.
Proof.
  intros Hp Hs. induction inputs as [|a inputs IH]; [discriminate|].
  unfold awaited in Hp. cbn [existsb] in Hp. cbn [map all_values].
  destruct (awaits p a) eqn:Ea.
  - destruct a as [x|q]; [discriminate|]. cbn [awaits] in Ea.
    apply Nat.eqb_eq in Ea. subst q. cbn [slot_after]. now rewrite Hs.
  - rewrite (IH Hp). destruct (slot_after schedule a); reflexivity.
Qed.

Lemma settle_all_rejected (st : AllPromise) (e : Error) (evs : list Settlement) :
  outcome st = Rejected e -> settle_all st evs = st.
Proof.
  intros H. induction evs as [|ev evs IH]; [reflexivity|].
  cbn [settle_all fold_left]. unfold all_step at 2. rewrite H. exact IH.
Qed.

Lemma Promise_all_initial (promises : list Awaitable) :
  slots (Promise_all promises) = map (slot_after []) promises /\
  outcome (Promise_all promises) = completion (slots (Promise_all promises)).
Proof.
  split; [|reflexivity]. unfold Promise_all. cbn [slots].
  apply map_ext. intros [v|p]; reflexivity.
Qed.

(** C7. When the pipeline produces the values [vals], [acollect(fn)]
    returns the aggregate of the results [fn(vals[i], i)], in production
    order.  Whatever the order in which the host settles the promises: if
    every promise among the results is fulfilled and none rejected, the
    aggregate is fulfilled with the list whose [i]-th element is the value
    the [i]-th result stands for; and as soon as a first promise among the
    results is rejected, the aggregate is rejected with its error, and stays
    so whatever settles afterwards, while every other promise still settles
    exactly as it would have without that rejection. *)
Theorem acollect_joins_in_production_order
    (ex : QueryExecutor) (f : Value -> Z -> Awaitable)
    (w w' : World) (vals : list Value) :
  collect ex w = (Ok vals, w') ->
  let promises := map (fun vi => f (fst vi) (snd vi)) (indexed 0 vals) in
  acollect (Some (pure_callback f)) ex w = (Ok (Promise_all promises), w') /\
  (forall schedule,
     no_rejection promises schedule ->
     (forall p, awaited promises p = true ->
        exists v, promise_state schedule p = Fulfilled v) ->
     outcome (settle_all (Promise_all promises) schedule) =
     Fulfilled (map (resolved schedule) promises)) /\
  (forall before p e after,
     awaited promises p = true ->
     promise_state before p = Pending ->
     no_rejection promises before ->
     outcome (settle_all (Promise_all promises) (before ++ [Settle p (Err e)])) =
       Rejected e /\
     outcome (settle_all (Promise_all promises) (before ++ Settle p (Err e) :: after)) =
       Rejected e /\
     (forall q, q <> p ->
        promise_state (before ++ Settle p (Err e) :: after) q =
        promise_state (before ++ after) q)).
Proof.
  intros Hcollect promises. split; [|split].
  - unfold acollect. cbn [default from_option id].
    now rewrite (acollect_loop_pure f _ 0 [] w vals w' Hcollect).
  - intros schedule Hno Hall.
    destruct (Promise_all_initial promises) as [Hs Ho].
    destruct (settle_all_tracks promises schedule [] (Promise_all promises))
      as (_ & Hslots & Hout); try assumption; try reflexivity.
    rewrite Hout, Hslots. cbn [app]. unfold completion.
    now rewrite all_values_fulfilled.
  - intros before p e after Hp Hpending Hno.
    destruct (Promise_all_initial promises) as [Hs Ho].
    destruct (settle_all_tracks promises before [] (Promise_all promises))
      as (Hin & Hslots & Hout); try assumption; try reflexivity.
    cbn [app] in Hslots.
    assert (Hstep : outcome (all_step (settle_all (Promise_all promises) before)
                               (Settle p (Err e))) = Rejected e).
    { unfold all_step. rewrite Hout, Hslots. unfold completion.
      rewrite (all_values_pending before promises p Hp Hpending).
      rewrite Hin. fold (awaited promises p). now rewrite Hp. }
    unfold settle_all in *. rewrite !fold_left_app. cbn [fold_left].
    repeat split.
    + exact Hstep.
    + fold (settle_all (all_step (fold_left all_step before (Promise_all promises))
                          (Settle p (Err e))) after).
      now rewrite (settle_all_rejected _ e).
    + intros q Hq. rewrite !promise_state_app. cbn [promise_state].
      apply Nat.eqb_neq in Hq. now rewrite Hq.
Qed.

Lemma acollect_joins_in_production_order_witness :
  let ex := mkExecutor identity_rule (array_source [VStr "x"; VStr "y"]) in
  let f := fun (_ : Value) (i : Z) => Promise (Z.to_nat i) in
  let w := mkWorld ∅ [] in
  collect ex w = (Ok [VStr "x"; VStr "y"], w) /\
  outcome (settle_all (Promise_all [Promise 0; Promise 1])
             [Settle 1 (Ok (VNum 11)); Settle 0 (Ok (VNum 10))]) =
  Fulfilled [VNum 10; VNum 11].
Proof.
  intros ex f w.
  assert (H : collect ex w = (Ok [VStr "x"; VStr "y"], w)) by reflexivity.
  split; [exact H|].
  refine (proj1 (proj2 (acollect_joins_in_production_order ex f w w _ H)) _ _ _).
  - intros p e [E|[E|[]]]; discriminate E.
  - intros p Hp. destruct p as [|[|p]].
    + exists (VNum 10). reflexivity.
    + exists (VNum 11). reflexivity.
    + discriminate Hp.
Defined.

(** ** Feeding a collected output

    When the pipeline of [R1] over [S] has no effect and does not depend on
    the world, that is when it behaves as the iterator of an array [vals],
    the builder holding [R1] followed by [R2] runs over [S] as the builder
    holding [R2] runs over the array [vals]. *)
Lemma compile_feeds_collected_output (R1 R2 : list Stage) (S : Source)
    (vals : list Value) :
  compile_rules (map build_rule R1) S = of_list vals ->
  compile_rules (map build_rule (R1 ++ R2)) S =
  compile_rules (map build_rule R2) (array_source vals).
Proof.
  intros H. rewrite map_app, compile_rules_app by apply Forall_build_rule_iterates.
  rewrite H.
  assert (Hlib : library_rule (compile_rules (map build_rule R2))).
  { apply compile_rules_library_rule, Forall_forall. intros r Hr.
    apply list_elem_of_In, in_map_iff in Hr. destruct Hr as (st & <- & _).
    apply build_rule_library_rule. }
  destruct Hlib as [Hin _]. rewrite (Hin (array_source vals)).
  now rewrite (iterate_iterable (array_source vals) (of_list vals)).
Qed.

(** ** The examples of the specification *)

Example take_2_of_3 :
  run_stage (StTake 2) [VNum 1; VNum 2; VNum 3] (mkWorld ∅ []) =
  (Ok [VNum 1; VNum 2], mkWorld ∅ []).
Proof. reflexivity. Qed.

Example skip_2_of_3 :
  run_stage (StSkip 2) [VNum 1; VNum 2; VNum 3] (mkWorld ∅ []) =
  (Ok [VNum 3], mkWorld ∅ []).
Proof. reflexivity. Qed.

Example where_gt_2 :
  run_stage (StWhere (num_gt 2)) [VNum 1; VNum 2; VNum 3; VNum 4] (mkWorld ∅ []) =
  (Ok [VNum 3; VNum 4], mkWorld ∅ []).
Proof. reflexivity. Qed.

Example map_double :
  run_stage (StMap num_double) [VNum 1; VNum 2; VNum 3] (mkWorld ∅ []) =
  (Ok [VNum 2; VNum 4; VNum 6], mkWorld ∅ []).
Proof. reflexivity. Qed.

Example flat_1_of_3_groups :
  run_stage (StFlat (Some 1))
    [VArr [VNum 1; VNum 2]; VArr [VNum 3; VNum 4]; VArr [VNum 5; VNum 6]]
    (mkWorld ∅ []) =
  (Ok [VNum 1; VNum 2], mkWorld ∅ []).
Proof. reflexivity. Qed.

Example flat_unlimited :
  run_stage (StFlat None) [VArr [VNum 1]; VArr [VNum 2; VNum 3]] (mkWorld ∅ []) =
  (Ok [VNum 1; VNum 2; VNum 3], mkWorld ∅ []).
Proof. reflexivity. Qed.

Example select_single_field :
  run_stage (StSelect (FieldName "a")) [VRef 1%positive] sample_world =
  (Ok [VNum 1], sample_world).
Proof. reflexivity. Qed.

Example select_two_fields :
  run_stage (StSelect (FieldArray ["a"; "c"])%string) [VRef 1%positive] sample_world =
  (Ok [VRef 2%positive],
   mkWorld (<[2%positive := {[ "a"%string := VNum 1; "c"%string := VUndefined ]}]>
              (heap sample_world)) []).
Proof. vm_compute. reflexivity. Qed.

(** * Further properties of the library *)

(** ** One step of each loop *)

Lemma take_loop_step (n taken : Z) (g : Gen) (w : World) :
  next (take_loop n taken g) w =
  match next g w with
  | SDone w' => SDone w'
  | SThrow e w' => SThrow e w'
  | SYield val w' k =>
      if n <=? taken then SDone w' else SYield val w' (take_loop n (taken + 1) k)
  end.
Proof. destruct g; reflexivity. Qed.

Lemma skip_loop_step (n skipped : Z) (g : Gen) (w : World) :
  next (skip_loop n skipped g) w =
  match next g w with
  | SDone w' => SDone w'
  | SThrow e w' => SThrow e w'
  | SYield val w' k =>
      if n <=? skipped then SYield val w' (skip_loop n (skipped + 1) k)
      else next (skip_loop n (skipped + 1) k) w'
  end.
Proof. destruct g; reflexivity. Qed.

Lemma map_loop_step (fn : Callback Value) (i : Z) (g : Gen) (w : World) :
  next (map_loop fn i g) w =
  match next g w with
  | SDone w' => SDone w'
  | SThrow e w' => SThrow e w'
  | SYield val w' k =>
      match fn val i w' with
      | (Err e, w2) => SThrow e w2
      | (Ok x, w2) => SYield x w2 (map_loop fn (i + 1) k)
      end
  end.
Proof. destruct g; reflexivity. Qed.

Lemma iforeach_loop_step (fn : Callback unit) (i : Z) (g : Gen) (w : World) :
  iforeach_loop fn i g w =
  match next g w with
  | SDone w' => (Ok tt, w')
  | SThrow e w' => (Err e, w')
  | SYield val w' k =>
      match fn val i w' with
      | (Err e, w2) => (Err e, w2)
      | (Ok _, w2) => iforeach_loop fn (i + 1) k w2
      end
  end.
Proof. destruct g; reflexivity. Qed.

Lemma foreach_loop_step (fn : Value -> World -> Result unit * World) (g : Gen)
    (w : World) :
  foreach_loop fn g w =
  match next g w with
  | SDone w' => (Ok tt, w')
  | SThrow e w' => (Err e, w')
  | SYield val w' k =>
      match fn val w' with
      | (Err e, w2) => (Err e, w2)
      | (Ok _, w2) => foreach_loop fn k w2
      end
  end.
Proof. destruct g; reflexivity. Qed.

(** ** skip *)

Lemma skip_loop_of_list (n : Z) (items : list Value) : forall skipped,
  skip_loop n skipped (of_list items) = of_list (skipn (Z.to_nat (n - skipped)) items).
Proof.
  induction items as [|v items IH]; intros skipped; apply gen_ext; intros w;
    rewrite skip_loop_step; cbn [of_list next].
  - now rewrite skipn_nil.
  - destruct (Z.leb_spec n skipped) as [Hle|Hlt].
    + replace (Z.to_nat (n - skipped)) with 0%nat by lia. cbn [skipn of_list next].
      rewrite IH. replace (Z.to_nat (n - (skipped + 1))) with 0%nat by lia.
      reflexivity.
    + replace (Z.to_nat (n - skipped)) with (S (Z.to_nat (n - (skipped + 1)))) by lia.
      cbn [skipn]. now rewrite IH.
Qed.

Lemma skip_loop_outputs (n : Z) (g : Gen) : forall skipped w,
  fst (drain (skip_loop n skipped g) w) =
  skipn (Z.to_nat (n - skipped)) (fst (drain g w)).
Proof.
  induction g as [step IH] using Gen_induction. intros skipped w.
  rewrite (drain_fst_step (MkGen step)), drain_fst_step, skip_loop_step.
  cbn [next]. specialize (IH w).
  destruct (step w) as [w'|e w'|v w' k]; cbn [step_all] in IH.
  - now rewrite skipn_nil.
  - now rewrite skipn_nil.
  - destruct (Z.leb_spec n skipped) as [Hle|Hlt].
    + replace (Z.to_nat (n - skipped)) with 0%nat by lia. cbn [skipn].
      rewrite IH. replace (Z.to_nat (n - (skipped + 1))) with 0%nat by lia.
      reflexivity.
    + replace (Z.to_nat (n - skipped)) with (S (Z.to_nat (n - (skipped + 1)))) by lia.
      cbn [skipn]. now rewrite <- drain_fst_step, IH.
Qed.

Lemma skip_loop_logged (n : Z) (items : list Value) : forall skipped w,
  drain (skip_loop n skipped (logged_source items)) w =
  (skipn (Z.to_nat (n - skipped)) items,
   (Ok tt, mkWorld (heap w) (log w ++ map EvProduce items))).
Proof.
  induction items as [|v items IH]; intros skipped w;
    rewrite drain_step, skip_loop_step; cbn [logged_source next].
  - rewrite skipn_nil. cbn [map]. rewrite app_nil_r. destruct w; reflexivity.
  - destruct (Z.leb_spec n skipped) as [Hle|Hlt].
    + replace (Z.to_nat (n - skipped)) with 0%nat by lia. rewrite IH.
      replace (Z.to_nat (n - (skipped + 1))) with 0%nat by lia.
      cbn [skipn heap emit log map]. rewrite <- app_assoc. reflexivity.
    + replace (Z.to_nat (n - skipped)) with (S (Z.to_nat (n - (skipped + 1)))) by lia.
      rewrite <- drain_step, IH. cbn [skipn heap emit log map].
      rewrite <- app_assoc. reflexivity.
Qed.

(** X1. [skip(n)] drops the first [n] values its input yields and passes on
    every later one, whatever the input generator; when [n] is zero or
    negative nothing is dropped.  Unlike [take], it always reads its input
    to the end: over a one-shot source every element is requested. *)
Theorem skip_drops_first_n (n : Z) :
  (forall (g : Gen) (w : World),
     fst (drain (BuildSkipRule n (SrcGen g)) w) =
     skipn (Z.to_nat n) (fst (drain g w))) /\
  (forall (items : list Value),
     BuildSkipRule n (array_source items) = of_list (skipn (Z.to_nat n) items)) /\
  (forall (items : list Value) (w : World),
     drain (BuildSkipRule n (SrcGen (logged_source items))) w =
     (skipn (Z.to_nat n) items,
      (Ok tt, mkWorld (heap w) (log w ++ map EvProduce items)))).
Proof.
  unfold BuildSkipRule. repeat split.
  - intros g w. now rewrite for_of_gen, skip_loop_outputs, Z.sub_0_r.
  - intros items. now rewrite for_of_array, skip_loop_of_list, Z.sub_0_r.
  - intros items w. now rewrite for_of_gen, skip_loop_logged, Z.sub_0_r.
Qed.

(** ** Queries run from scratch *)

Lemma for_of_ok (it : Source) (loop : Gen -> Gen) (g : Gen) :
  get_iterator it = Ok g -> for_of it loop = loop g.
Proof. intros H. apply gen_ext. intros w. unfold for_of. simpl. now rewrite H. Qed.

Lemma for_of_err (it : Source) (loop : Gen -> Gen) (e : Error) :
  get_iterator it = Err e -> for_of it loop = fails_with e.
Proof. intros H. apply gen_ext. intros w. unfold for_of. simpl. now rewrite H. Qed.

Lemma query_on_iterator (sts : list Stage) (S : Source) :
  exec_iterator (query_on sts S) =
  compile_rules (map build_rule sts) (iterable (query_on sts S)).
Proof.
  rewrite exec_iterator_query. unfold query_on, on at 1. cbn [query].
  now rewrite compile_builder.
Qed.

Lemma query_on_array (sts : list Stage) (items : list Value) :
  exec_iterator (query_on sts (array_source items)) =
  compile_rules (map build_rule sts) (array_source items).
Proof. apply query_on_iterator. Qed.

Lemma query_on_gen (sts : list Stage) (g : Gen) :
  exec_iterator (query_on sts (SrcGen g)) =
  compile_rules (map build_rule sts) (SrcGen g).
Proof. apply query_on_iterator. Qed.

(** ** take and skip composed *)

Lemma take_loop_shift (g : Gen) : forall n taken d,
  take_loop (n + d) (taken + d) g = take_loop n taken g.
Proof.
  induction g as [step IH] using Gen_induction. intros n taken d.
  apply gen_ext. intros w. rewrite !take_loop_step. cbn [next].
  specialize (IH w). destruct (step w) as [w'|e w'|v w' k]; cbn [step_all] in IH;
    try reflexivity.
  destruct (Z.leb_spec (n + d) (taken + d)), (Z.leb_spec n taken); try lia;
    try reflexivity.
  replace (taken + d + 1) with (taken + 1 + d) by lia. now rewrite IH.
Qed.

Lemma take_loop_fails (n taken : Z) (e : Error) :
  take_loop n taken (fails_with e) = fails_with e.
Proof. apply gen_ext. intros w. reflexivity. Qed.

Lemma take_loop_take_loop (g : Gen) : forall a b i j,
  take_loop b j (take_loop a i g) = take_loop (Z.min (a - i) (b - j)) 0 g.
Proof.
  induction g as [step IH] using Gen_induction. intros a b i j.
  apply gen_ext. intros w. rewrite take_loop_step, !take_loop_step. cbn [next].
  specialize (IH w). destruct (step w) as [w'|e w'|v w' k]; cbn [step_all] in IH;
    try reflexivity.
  destruct (Z.leb_spec a i) as [Ha|Ha].
  - destruct (Z.leb_spec (Z.min (a - i) (b - j)) 0); [reflexivity|lia].
  - destruct (Z.leb_spec b j) as [Hb|Hb].
    + destruct (Z.leb_spec (Z.min (a - i) (b - j)) 0); [reflexivity|lia].
    + destruct (Z.leb_spec (Z.min (a - i) (b - j)) 0); [lia|].
      rewrite IH. f_equal.
      rewrite <- (take_loop_shift k (Z.min (a - (i + 1)) (b - (j + 1))) 0 1).
      f_equal; lia.
Qed.

(** X2. Two [take] stages in a row are one [take] of the smaller count: on
    every source, [query().take(a).take(b)] runs as [query().take(min(a, b))],
    with the same output, the same failures and the same requests to the
    source. *)
Theorem take_take_is_take_min (a b : Z) (S : Source) :
  exec_iterator (query_on [StTake a; StTake b] S) =
  exec_iterator (query_on [StTake (Z.min a b)] S).
Proof.
  rewrite !query_on_iterator.
  change (iterable (query_on [StTake a; StTake b] S))
    with (iterable (query_on [StTake (Z.min a b)] S)).
  generalize (iterable (query_on [StTake (Z.min a b)] S)). intros it.
  cbn [map build_rule compile_rules fold_left]. unfold BuildTakeRule.
  rewrite for_of_gen. destruct (get_iterator it) as [g|e] eqn:E.
  - rewrite !(for_of_ok it _ g E), take_loop_take_loop. f_equal; lia.
  - rewrite !(for_of_err it _ e E). apply take_loop_fails.
Qed.

Lemma skip_loop_shift (g : Gen) : forall n skipped d,
  skip_loop (n + d) (skipped + d) g = skip_loop n skipped g.
Proof.
  induction g as [step IH] using Gen_induction. intros n skipped d.
  apply gen_ext. intros w. rewrite !skip_loop_step. cbn [next].
  specialize (IH w). destruct (step w) as [w'|e w'|v w' k]; cbn [step_all] in IH;
    try reflexivity.
  replace (skipped + d + 1) with (skipped + 1 + d) by lia. rewrite IH.
  destruct (Z.leb_spec (n + d) (skipped + d)), (Z.leb_spec n skipped); try lia;
    reflexivity.
Qed.

Lemma skip_loop_pass (g : Gen) : forall n skipped,
  n <= skipped -> skip_loop n skipped g = g.
Proof.
  induction g as [step IH] using Gen_induction. intros n skipped H.
  apply gen_ext. intros w. rewrite skip_loop_step. cbn [next].
  specialize (IH w). destruct (step w) as [w'|e w'|v w' k]; cbn [step_all] in IH;
    try reflexivity.
  destruct (Z.leb_spec n skipped); [|lia]. rewrite IH by lia. reflexivity.
Qed.

Lemma skip_loop_fails (n skipped : Z) (e : Error) :
  skip_loop n skipped (fails_with e) = fails_with e.
Proof. apply gen_ext. intros w. reflexivity. Qed.

Lemma skip_loop_skip_loop (g : Gen) : forall a b i j,
  skip_loop b j (skip_loop a i g) =
  skip_loop (Z.max (a - i) 0 + Z.max (b - j) 0) 0 g.
Proof.
  induction g as [step IH] using Gen_induction. intros a b i j.
  destruct (Z.le_gt_cases a i) as [Ha|Ha].
  - rewrite (skip_loop_pass (MkGen step) a i Ha).
    destruct (Z.le_gt_cases b j) as [Hb|Hb].
    + rewrite !skip_loop_pass by lia. reflexivity.
    + replace (Z.max (a - i) 0 + Z.max (b - j) 0) with (b - j) by lia.
      rewrite <- (skip_loop_shift (MkGen step) (b - j) 0 j).
      f_equal; lia.
  - apply gen_ext. intros w.
    rewrite skip_loop_step, (skip_loop_step a), (skip_loop_step (_ + _)).
    cbn [next]. specialize (IH w).
    destruct (step w) as [w'|e w'|v w' k]; cbn [step_all] in IH; try reflexivity.
    destruct (Z.leb_spec a i); [lia|].
    destruct (Z.leb_spec (Z.max (a - i) 0 + Z.max (b - j) 0) 0); [lia|].
    rewrite <- skip_loop_step, IH.
    rewrite <- (skip_loop_shift k (Z.max (a - (i + 1)) 0 + Z.max (b - j) 0) 0 1).
    f_equal. f_equal; lia.
Qed.

(** X3. Two [skip] stages in a row are one [skip] of the sum of the counts,
    a negative count standing for zero: on every source,
    [query().skip(a).skip(b)] runs as [query().skip(max(a, 0) + max(b, 0))]. *)
Theorem skip_skip_is_skip_sum (a b : Z) (S : Source) :
  exec_iterator (query_on [StSkip a; StSkip b] S) =
  exec_iterator (query_on [StSkip (Z.max a 0 + Z.max b 0)] S).
Proof.
  rewrite !query_on_iterator.
  change (iterable (query_on [StSkip a; StSkip b] S))
    with (iterable (query_on [StSkip (Z.max a 0 + Z.max b 0)] S)).
  generalize (iterable (query_on [StSkip (Z.max a 0 + Z.max b 0)] S)). intros it.
  cbn [map build_rule compile_rules fold_left]. unfold BuildSkipRule.
  rewrite for_of_gen. destruct (get_iterator it) as [g|e] eqn:E.
  - rewrite !(for_of_ok it _ g E), skip_loop_skip_loop. f_equal; lia.
  - rewrite !(for_of_err it _ e E). apply skip_loop_fails.
Qed.

(** X4. Paging: [query().skip(a).take(b)] yields, of what its input yields,
    the [b] values that follow the first [a]; over an array it is the
    iterator of that slice and has no effect. *)
Theorem skip_take_is_slice (a b : Z) :
  (forall (g : Gen) (w : World),
     fst (drain (exec_iterator (query_on [StSkip a; StTake b] (SrcGen g))) w) =
     firstn (Z.to_nat b) (skipn (Z.to_nat a) (fst (drain g w)))) /\
  (forall (items : list Value) (w : World),
     collect (query_on [StSkip a; StTake b] (array_source items)) w =
     (Ok (firstn (Z.to_nat b) (skipn (Z.to_nat a) items)), w)).
Proof.
  split.
  - intros g w. rewrite query_on_gen.
    cbn [map build_rule compile_rules fold_left].
    unfold BuildTakeRule, BuildSkipRule.
    now rewrite !for_of_gen, take_loop_outputs, skip_loop_outputs, !Z.sub_0_r.
  - intros items w. unfold collect. rewrite query_on_array.
    cbn [map build_rule compile_rules fold_left].
    unfold BuildTakeRule, BuildSkipRule.
    rewrite for_of_gen, for_of_array, skip_loop_of_list, take_loop_of_list, !Z.sub_0_r.
    generalize (firstn (Z.to_nat b) (skipn (Z.to_nat a) items)). intros vals.
    revert w. induction vals as [|v vals IH]; intros w; [reflexivity|].
    rewrite array_from_step. cbn [of_list next]. now rewrite IH.
Qed.

(** ** map *)

Lemma array_from_of_list (vals : list Value) (w : World) :
  array_from (of_list vals) w = (Ok vals, w).
Proof.
  induction vals as [|v vals IH]; [reflexivity|].
  rewrite array_from_step. cbn [of_list next]. now rewrite IH.
Qed.

Lemma map_loop_pure_of_list (f : Value -> Z -> Value) (items : list Value) : forall i,
  map_loop (pure_callback f) i (of_list items) =
  of_list (map (fun vi => f (fst vi) (snd vi)) (indexed i items)).
Proof.
  induction items as [|v items IH]; intros i; apply gen_ext; intros w;
    rewrite map_loop_step; cbn [of_list next indexed map fst snd]; [reflexivity|].
  unfold pure_callback at 1. now rewrite IH.
Qed.

Lemma map_loop_pure_outputs (f : Value -> Z -> Value) (g : Gen) : forall i w,
  fst (drain (map_loop (pure_callback f) i g) w) =
  map (fun vi => f (fst vi) (snd vi)) (indexed i (fst (drain g w))).
Proof.
  induction g as [step IH] using Gen_induction. intros i w.
  rewrite (drain_fst_step (MkGen step)), drain_fst_step, map_loop_step.
  cbn [next]. specialize (IH w).
  destruct (step w) as [w'|e w'|v w' k]; cbn [step_all] in IH; try reflexivity.
  unfold pure_callback at 1. cbn [indexed map fst snd]. now rewrite IH.
Qed.

(** X5. [map(f)], for a mapper [f] without effects, yields [f(v, i)] for
    the [i]-th value [v] its input yields, in order and one for one,
    whatever the input generator; over an array it is the iterator of the
    mapped array. *)
Theorem map_applies_to_each_with_position (f : Value -> Z -> Value) :
  (forall (g : Gen) (w : World),
     fst (drain (BuildMapRule (pure_callback f) (SrcGen g)) w) =
     map (fun vi => f (fst vi) (snd vi)) (indexed 0 (fst (drain g w)))) /\
  (forall (items : list Value),
     BuildMapRule (pure_callback f) (array_source items) =
     of_list (map (fun vi => f (fst vi) (snd vi)) (indexed 0 items))).
Proof.
  unfold BuildMapRule. split.
  - intros g w. now rewrite for_of_gen, map_loop_pure_outputs.
  - intros items. now rewrite for_of_array, map_loop_pure_of_list.
Qed.

Lemma map_loop_fails (fn : Callback Value) (i : Z) (e : Error) :
  map_loop fn i (fails_with e) = fails_with e.
Proof. apply gen_ext. intros w. reflexivity. Qed.

Lemma map_loop_map_loop (fn1 fn2 : Callback Value) (g : Gen) : forall i,
  map_loop fn2 i (map_loop fn1 i g) = map_loop (then_callback fn1 fn2) i g.
Proof.
  induction g as [step IH] using Gen_induction. intros i.
  apply gen_ext. intros w. rewrite map_loop_step, !map_loop_step. cbn [next].
  specialize (IH w). destruct (step w) as [w'|e w'|v w' k]; cbn [step_all] in IH;
    try reflexivity.
  unfold then_callback at 1. destruct (fn1 v i w') as [[x|e] w1]; [|reflexivity].
  destruct (fn2 x i w1) as [[y|e] w2]; [|reflexivity]. now rewrite IH.
Qed.

(** X6. Two [map] stages in a row are one [map] of the composed mapper:
    on every source, [query().map(fn1).map(fn2)] runs as
    [query().map((v, i) => fn2(fn1(v, i), i))], whatever the two callbacks do
    (effects, throws): each value goes through [fn1] and then [fn2] before
    the next value is pulled. *)
Theorem map_map_is_map_composed (fn1 fn2 : Callback Value) (S : Source) :
  exec_iterator (query_on [StMap fn1; StMap fn2] S) =
  exec_iterator (query_on [StMap (then_callback fn1 fn2)] S).
Proof.
  rewrite !query_on_iterator.
  change (iterable (query_on [StMap fn1; StMap fn2] S))
    with (iterable (query_on [StMap (then_callback fn1 fn2)] S)).
  generalize (iterable (query_on [StMap (then_callback fn1 fn2)] S)). intros it.
  cbn [map build_rule compile_rules fold_left]. unfold BuildMapRule.
  rewrite for_of_gen. destruct (get_iterator it) as [g|e] eqn:E.
  - rewrite !(for_of_ok it _ g E). apply map_loop_map_loop.
  - rewrite !(for_of_err it _ e E). apply map_loop_fails.
Qed.

(** ** where composed *)

Lemma where_loop_fails (fn : Callback bool) (i : Z) (e : Error) :
  where_loop fn i (fails_with e) = fails_with e.
Proof. apply gen_ext. intros w. reflexivity. Qed.

Lemma value_predicate_apply (p : Value -> bool) (v : Value) (i : Z) (w : World) :
  value_predicate p v i w = (Ok (p v), w).
Proof. reflexivity. Qed.

Lemma where_loop_where_loop (p q : Value -> bool) (g : Gen) : forall i j k,
  where_loop (value_predicate q) j (where_loop (value_predicate p) i g) =
  where_loop (value_predicate (fun v => p v && q v)) k g.
Proof.
  induction g as [step IH] using Gen_induction. intros i j k.
  apply gen_ext. intros w.
  rewrite where_loop_step, (where_loop_step (value_predicate p)),
    (where_loop_step (value_predicate (fun v => p v && q v))).
  cbn [next]. specialize (IH w).
  destruct (step w) as [w'|e w'|v w' k']; cbn [step_all] in IH; try reflexivity.
  rewrite !value_predicate_apply.
  destruct (p v); cbn [andb].
  - rewrite value_predicate_apply. destruct (q v).
    + now rewrite (IH (i + 1) (j + 1) (k + 1)).
    + now rewrite (IH (i + 1) (j + 1) (k + 1)).
  - rewrite <- where_loop_step. now rewrite (IH (i + 1) j (k + 1)).
Qed.

(** X7. Two [where] stages in a row, with predicates that look at the
    value only, are one [where] of their conjunction: on every source,
    [query().where(p).where(q)] runs as [query().where(v => p(v) && q(v))]. *)
Theorem where_where_is_where_both (p q : Value -> bool) (S : Source) :
  exec_iterator (query_on [StWhere (value_predicate p); StWhere (value_predicate q)] S) =
  exec_iterator (query_on [StWhere (value_predicate (fun v => p v && q v))] S).
Proof.
  rewrite !query_on_iterator.
  change (iterable (query_on [StWhere (value_predicate p);
                              StWhere (value_predicate q)] S))
    with (iterable (query_on [StWhere (value_predicate (fun v => p v && q v))] S)).
  generalize (iterable (query_on [StWhere (value_predicate (fun v => p v && q v))] S)).
  intros it.
  cbn [map build_rule compile_rules fold_left]. unfold BuildWhereRule.
  rewrite for_of_gen. destruct (get_iterator it) as [g|e] eqn:E.
  - rewrite !(for_of_ok it _ g E). apply where_loop_where_loop.
  - rewrite !(for_of_err it _ e E). apply where_loop_fails.
Qed.

(** ** Failures and laziness *)

Lemma array_from_drain (g : Gen) : forall w,
  array_from g w =
  match drain g w with
  | (vals, (Ok _, w')) => (Ok vals, w')
  | (_, (Err e, w')) => (Err e, w')
  end.
Proof.
  induction g as [step IH] using Gen_induction. intros w.
  rewrite array_from_step, drain_step. cbn [next]. specialize (IH w).
  destruct (step w) as [w'|e w'|v w' k]; cbn [step_all] in IH; try reflexivity.
  rewrite IH. destruct (drain k w') as [vals [[[]|e] w2]]; reflexivity.
Qed.

Lemma map_loop_prefix
    (f : Value -> Z -> gmap loc (gmap string Value) -> Result Value)
    (pre : list Value) : forall (i : Z) (tail : Gen) (w : World),
  (forall (j : nat) v, pre !! j = Some v ->
     exists x, f v (i + Z.of_nat j) (heap w) = Ok x) ->
  exists outs,
    Forall2 (fun vi x => f (fst vi) (snd vi) (heap w) = Ok x) (indexed i pre) outs /\
    forall w', w' = mkWorld (heap w) (log w ++ interleaved i pre) ->
    drain (map_loop (observed f) i (yield_star (logged_source pre) tail)) w =
    (outs ++ fst (drain (map_loop (observed f) (i + Z.of_nat (length pre)) tail) w'),
     snd (drain (map_loop (observed f) (i + Z.of_nat (length pre)) tail) w')).
Proof.
  induction pre as [|v pre IH]; intros i tail w H.
  - exists []. split; [constructor|]. intros w' ->.
    unfold interleaved. cbn [indexed flat_map length app]. rewrite app_nil_r, Z.add_0_r.
    assert (E : yield_star (logged_source []) tail = tail).
    { apply gen_ext. intros w0. now rewrite yield_star_step. }
    rewrite E. destruct w. cbn [heap log].
    now destruct (drain (map_loop (observed f) i tail) _).
  - destruct (H 0%nat v eq_refl) as [x Hx]. rewrite Z.add_0_r in Hx.
    destruct (IH (i + 1) tail (emit (EvCall v i) (emit (EvProduce v) w)))
      as (outs & Hall & Hrun).
    { intros j v' Hj. destruct (H (S j) v' Hj) as [x' Hx']. exists x'.
      cbn [heap emit]. rewrite <- Hx'. f_equal. lia. }
    exists (x :: outs). split; [constructor; assumption|]. intros w' ->.
    rewrite drain_step, map_loop_step, yield_star_step. cbn [logged_source next].
    unfold observed at 1. change (heap (emit (EvProduce v) w)) with (heap w).
    rewrite Hx.
    rewrite (Hrun _ eq_refl). cbn [heap emit log length]. unfold interleaved.
    cbn [indexed flat_map fst snd]. rewrite <- !app_assoc. cbn [app].
    replace (i + 1 + Z.of_nat (length pre)) with (i + Z.of_nat (S (length pre))) by lia.
    reflexivity.
Qed.

(** X8. When the mapper of a [map] stage throws on a value, the stage
    throws that error at that value: the results for the earlier values have
    been yielded, nothing after the failing value is pulled from the source
    (the rest of the input, [rest], is never resumed), and [collect] on such
    a pipeline returns the error and no value. *)
Theorem map_failure_stops_pipeline
    (f : Value -> Z -> gmap loc (gmap string Value) -> Result Value)
    (pre : list Value) (bad : Value) (rest : Gen) (e : Error) (w : World) :
  (forall (j : nat) v, pre !! j = Some v ->
     exists x, f v (Z.of_nat j) (heap w) = Ok x) ->
  f bad (Z.of_nat (length pre)) (heap w) = Err e ->
  let source := SrcGen (yield_star (logged_source (pre ++ [bad])) rest) in
  let w' := mkWorld (heap w)
              (log w ++ interleaved 0 pre ++
               [EvProduce bad; EvCall bad (Z.of_nat (length pre))]) in
  exists outs,
    Forall2 (fun vi x => f (fst vi) (snd vi) (heap w) = Ok x) (indexed 0 pre) outs /\
    drain (BuildMapRule (observed f) source) w = (outs, (Err e, w')) /\
    collect (query_on [StMap (observed f)] source) w = (Err e, w').
Proof.
  intros Hpre Hbad source w'. subst source.
  destruct (map_loop_prefix f pre 0 (yield_star (logged_source [bad]) rest) w)
    as (outs & Hall & Hrun).
  { intros j v Hj. rewrite Z.add_0_l. eauto. }
  exists outs. split; [assumption|].
  assert (Hdrain : drain (BuildMapRule (observed f)
                             (SrcGen (yield_star (logged_source (pre ++ [bad])) rest)))
                     w = (outs, (Err e, w'))).
  { assert (Htail : drain (map_loop (observed f) (0 + Z.of_nat (length pre))
                             (yield_star (logged_source [bad]) rest))
                      (mkWorld (heap w) (log w ++ interleaved 0 pre)) =
                    ([], (Err e, w'))).
    { rewrite drain_step, map_loop_step, yield_star_step.
      cbn [logged_source next]. unfold observed at 1. cbn [heap emit].
      rewrite Z.add_0_l, Hbad. unfold w', emit. cbn [heap log].
      rewrite <- !app_assoc. reflexivity. }
    unfold BuildMapRule. rewrite for_of_gen, logged_source_app.
    rewrite (Hrun _ eq_refl), Htail. cbn [fst snd]. now rewrite app_nil_r. }
  split; [exact Hdrain|].
  unfold collect. rewrite query_on_gen. cbn [map build_rule compile_rules fold_left].
  now rewrite array_from_drain, Hdrain.
Qed.

Lemma map_failure_stops_pipeline_witness :
  let f := fun (v : Value) (_ : Z) (_ : gmap loc (gmap string Value)) =>
             match v with
             | VNum z => Ok (VNum (z * 2))
             | _ => Err (Thrown (VStr "not a number"))
             end in
  collect (query_on [StMap (observed f)]
             (SrcGen (logged_source [VNum 1; VNull; VNum 3])))
          (mkWorld ∅ []) =
  (Err (Thrown (VStr "not a number")),
   mkWorld ∅ [EvProduce (VNum 1); EvCall (VNum 1) 0; EvProduce VNull; EvCall VNull 1]).
Proof.
  intros f.
  destruct (map_failure_stops_pipeline f [VNum 1] VNull (logged_source [VNum 3])
              (Thrown (VStr "not a number")) (mkWorld ∅ []))
    as (outs & _ & _ & Hcollect).
  - intros [|j] v Hj; inversion Hj. eexists. reflexivity.
  - reflexivity.
  - exact Hcollect.
Defined.

Lemma map_take_calls
    (f : Value -> Z -> gmap loc (gmap string Value) -> Value)
    (n : Z) (items : list Value) : forall i taken w,
  drain (take_loop n taken
           (map_loop (observed (fun v i h => Ok (f v i h))) i (of_list items))) w =
  (firstn (Z.to_nat (n - taken))
     (map (fun vi => f (fst vi) (snd vi) (heap w)) (indexed i items)),
   (Ok tt,
    mkWorld (heap w)
      (log w ++ map (fun vi => EvCall (fst vi) (snd vi))
                    (firstn (S (Z.to_nat (n - taken))) (indexed i items))))).
Proof.
  induction items as [|v items IH]; intros i taken w;
    rewrite drain_step, take_loop_step, map_loop_step; cbn [of_list next].
  - rewrite firstn_nil. cbn [indexed firstn map]. rewrite app_nil_r.
    destruct w; reflexivity.
  - unfold observed at 1. cbn [indexed map fst snd].
    destruct (Z.leb_spec n taken) as [Hle|Hlt].
    + replace (Z.to_nat (n - taken)) with 0%nat by lia.
      cbn [firstn map fst snd]. destruct (indexed (i + 1) items); reflexivity.
    + replace (Z.to_nat (n - taken)) with (S (Z.to_nat (n - (taken + 1)))) by lia.
      rewrite IH. cbn [firstn map fst snd heap emit log].
      rewrite <- app_assoc. reflexivity.
Qed.

(** X9. Stages run on demand.  In [query().map(f).take(n)] over an array,
    [f] is not applied to the whole array: it is invoked on the first
    [n + 1] elements only (one more than are yielded, because [take] pulls
    one value more before it stops), in order, each with its position. *)
Theorem map_then_take_calls_mapper_on_demand
    (f : Value -> Z -> gmap loc (gmap string Value) -> Value)
    (n : Z) (items : list Value) (w : World) :
  drain (exec_iterator
           (query_on [StMap (observed (fun v i h => Ok (f v i h))); StTake n]
              (array_source items))) w =
  (firstn (Z.to_nat n) (map (fun vi => f (fst vi) (snd vi) (heap w)) (indexed 0 items)),
   (Ok tt,
    mkWorld (heap w)
      (log w ++ map (fun vi => EvCall (fst vi) (snd vi))
                    (firstn (S (Z.to_nat n)) (indexed 0 items))))).
Proof.
  rewrite query_on_array. cbn [map build_rule compile_rules fold_left].
  unfold BuildTakeRule, BuildMapRule.
  now rewrite for_of_gen, for_of_array, map_take_calls, Z.sub_0_r.
Qed.

(** ** flat: elements that are not iterable, requests to the source *)

Lemma yield_star_nil (rest : Gen) : yield_star (of_list []) rest = rest.
Proof. apply gen_ext. intros w. now rewrite yield_star_step. Qed.

Lemma yield_star_of_list_assoc (l1 l2 : list Value) (rest : Gen) :
  yield_star (of_list l1) (yield_star (of_list l2) rest) =
  yield_star (of_list (l1 ++ l2)) rest.
Proof.
  induction l1 as [|v l1 IH]; [apply yield_star_nil|].
  apply gen_ext. intros w. rewrite !yield_star_step. cbn [app of_list next].
  now rewrite IH.
Qed.

Lemma flat_loop_prefix (gs : list Group) : forall (n k : Z) (tail : list Value),
  n < 0 \/ k + Z.of_nat (length gs) <= n ->
  flat_loop n k (of_list (map group_value gs ++ tail)) =
  yield_star (of_list (concat (map group_members gs)))
    (flat_loop n (k + Z.of_nat (length gs)) (of_list tail)).
Proof.
  induction gs as [|g gs IH]; intros n k tail H.
  - cbn [map app concat length]. now rewrite yield_star_nil, Z.add_0_r.
  - apply gen_ext. intros w. rewrite flat_loop_step. cbn [map app of_list next].
    assert (E : (0 <=? n) && (n <=? k) = false).
    { cbn [length] in H. apply andb_false_iff.
      destruct H; [left; apply Z.leb_gt; lia|right; apply Z.leb_gt; lia]. }
    rewrite E, get_iterator_members, members_group, IH
      by (cbn [length] in H; lia).
    rewrite yield_star_of_list_assoc. cbn [concat length].
    replace (k + 1 + Z.of_nat (length gs)) with (k + Z.of_nat (S (length gs))) by lia.
    reflexivity.
Qed.

Lemma flat_loop_stopped (n k : Z) (v : Value) (rest : list Value) :
  0 <= n <= k -> flat_loop n k (of_list (v :: rest)) = finished.
Proof.
  intros H. apply gen_ext. intros w. rewrite flat_loop_step. cbn [of_list next].
  assert (E : (0 <=? n) && (n <=? k) = true).
  { apply andb_true_iff. split; apply Z.leb_le; lia. }
  now rewrite E.
Qed.

(** X10. An element that is not iterable makes [flat] fail with the
    not-iterable error when its turn comes: the members of the groups before
    it have been yielded.  It does no harm when the limit [n] is reached
    before: [flat(n)] then ends normally without looking into it. *)
Theorem flat_fails_on_element_not_iterable
    (bad : Value) (gs : list Group) (rest : list Value) :
  members bad = None ->
  (forall w,
     drain (BuildFlatRule None (array_source (map group_value gs ++ bad :: rest))) w =
     (concat (map group_members gs), (Err not_iterable, w))) /\
  (forall m : nat,
     (m <= length gs)%nat ->
     BuildFlatRule (Some (Z.of_nat m))
       (array_source (map group_value gs ++ bad :: rest)) =
     of_list (concat (map group_members (firstn m gs)))).
Proof.
  intros Hbad. unfold BuildFlatRule. cbn [default from_option id]. split.
  - intros w. rewrite for_of_array, flat_loop_prefix by (left; lia).
    rewrite drain_yield_star_of_list, drain_step, flat_loop_step.
    cbn [of_list next andb Z.leb]. rewrite get_iterator_members, Hbad.
    cbn [fst snd]. now rewrite app_nil_r.
  - intros m Hm. rewrite for_of_array.
    rewrite <- (firstn_skipn m gs) at 1. rewrite map_app, <- app_assoc.
    rewrite flat_loop_prefix by (right; rewrite length_firstn; lia).
    rewrite length_firstn.
    destruct (map group_value (skipn m gs) ++ bad :: rest) as [|v tail] eqn:E.
    { destruct (map group_value (skipn m gs)); discriminate E. }
    rewrite flat_loop_stopped by lia. apply yield_star_finished.
Qed.

Lemma flat_fails_on_element_not_iterable_witness :
  drain (BuildFlatRule None
           (array_source [VArr [VNum 1; VNum 2]; VNum 7; VArr [VNum 3]]))
        (mkWorld ∅ []) =
  ([VNum 1; VNum 2], (Err not_iterable, mkWorld ∅ [])).
Proof.
  exact (proj1 (flat_fails_on_element_not_iterable (VNum 7)
                  [GArr [VNum 1; VNum 2]] [VArr [VNum 3]] eq_refl)
               (mkWorld ∅ [])).
Defined.

Lemma flat_loop_logged_limited (n : Z) (gs : list Group) : forall k w,
  0 <= n ->
  drain (flat_loop n k (logged_source (map group_value gs))) w =
  (concat (map group_members (firstn (Z.to_nat (n - k)) gs)),
   (Ok tt,
    mkWorld (heap w)
      (log w ++ map EvProduce (firstn (S (Z.to_nat (n - k))) (map group_value gs))))).
Proof.
  intros k w Hn. revert k w.
  induction gs as [|g gs IH]; intros k w;
    rewrite drain_step, flat_loop_step; cbn [map logged_source next].
  - rewrite firstn_nil. cbn [map concat firstn]. rewrite app_nil_r.
    destruct w; reflexivity.
  - destruct ((0 <=? n) && (n <=? k)) eqn:E.
    + apply andb_true_iff in E as [_ E]. apply Z.leb_le in E.
      replace (Z.to_nat (n - k)) with 0%nat by lia. reflexivity.
    + apply andb_false_iff in E.
      destruct E as [E|E]; apply Z.leb_gt in E; [lia|].
      replace (Z.to_nat (n - k)) with (S (Z.to_nat (n - (k + 1)))) by lia.
      rewrite get_iterator_members, members_group, <- drain_step.
      rewrite drain_yield_star_of_list, IH.
      cbn [fst snd firstn map concat heap emit log]. rewrite <- app_assoc.
      reflexivity.
Qed.

Lemma flat_loop_logged_unlimited (n : Z) (gs : list Group) : forall k w,
  n < 0 ->
  drain (flat_loop n k (logged_source (map group_value gs))) w =
  (concat (map group_members gs),
   (Ok tt, mkWorld (heap w) (log w ++ map EvProduce (map group_value gs)))).
Proof.
  intros k w Hn. revert k w.
  induction gs as [|g gs IH]; intros k w;
    rewrite drain_step, flat_loop_step; cbn [map logged_source next].
  - cbn [concat]. rewrite app_nil_r. destruct w; reflexivity.
  - assert (E : (0 <=? n) && (n <=? k) = false).
    { apply andb_false_iff. left. apply Z.leb_gt. lia. }
    rewrite E, get_iterator_members, members_group, <- drain_step.
    rewrite drain_yield_star_of_list, IH.
    cbn [fst snd concat heap emit log]. rewrite <- app_assoc. reflexivity.
Qed.

(** X11. What [flat] asks of a one-shot source of groups.  [flat(n)] with
    [n] non-negative expands the first [n] groups and has then requested
    [n + 1] of them: the group after the last one expanded is pulled and
    dropped.  [flat()] requests every group. *)
Theorem flat_requests_one_group_more (gs : list Group) (w : World) :
  (forall m : nat,
     drain (BuildFlatRule (Some (Z.of_nat m))
              (SrcGen (logged_source (map group_value gs)))) w =
     (concat (map group_members (firstn m gs)),
      (Ok tt,
       mkWorld (heap w)
         (log w ++ map EvProduce (firstn (S m) (map group_value gs)))))) /\
  drain (BuildFlatRule None (SrcGen (logged_source (map group_value gs)))) w =
  (concat (map group_members gs),
   (Ok tt, mkWorld (heap w) (log w ++ map EvProduce (map group_value gs)))).
Proof.
  unfold BuildFlatRule. cbn [default from_option id]. split.
  - intros m. rewrite for_of_gen, flat_loop_logged_limited by lia.
    now rewrite Z.sub_0_r, Nat2Z.id.
  - rewrite for_of_gen. now apply flat_loop_logged_unlimited.
Qed.

(** ** select: elements that cannot be read, reading back a projection *)

Lemma get_field_nullish (val : Value) (field : string) (w : World) :
  nullish val = true -> get_field val field w = Err cannot_read.
Proof. destruct val; simpl; try discriminate; reflexivity. Qed.

(** X12. On an element that is [null] or [undefined], [select] with one
    name throws the error of a property read on such a value, and so does
    [select] with a non-empty array of names; with an empty array no
    property is read and the stage still yields a new record. *)
Theorem select_fails_on_null_element
    (names : list string) (name : string)
    (g : Gen) (w : World) (val : Value) (w' : World) (k : Gen) :
  next g w = SYield val w' k ->
  nullish val = true ->
  next (BuildSelectRule (FieldName name) (SrcGen g)) w = SThrow cannot_read w' /\
  next (BuildSelectRule (FieldArray names) (SrcGen g)) w =
  match names with
  | [] => SYield (VRef (fst (alloc_object w'))) (snd (alloc_object w'))
                 (BuildSelectRule (FieldArray []) (SrcGen k))
  | _ :: _ => SThrow cannot_read (snd (alloc_object w'))
  end.
Proof.
  intros Hnext Hnull. unfold BuildSelectRule. rewrite !for_of_gen. split.
  - now rewrite select_field_loop_step, Hnext, get_field_nullish.
  - rewrite select_fields_loop_step, Hnext. unfold alloc_object.
    destruct names as [|f rest]; cbn [copy_fields fst snd].
    + reflexivity.
    + now rewrite get_field_nullish.
Qed.

Lemma select_fails_on_null_element_witness :
  next (BuildSelectRule (FieldName "a") (SrcGen (of_list [VNull; VNum 1])))
       sample_world =
  SThrow cannot_read sample_world.
Proof.
  exact (proj1 (select_fails_on_null_element [] "a" (of_list [VNull; VNum 1])
                  sample_world VNull sample_world (of_list [VNum 1])
                  eq_refl eq_refl)).
Defined.

(** X13. Reading back a projection.  After [select(names)], a following
    [select(name)] yields, for an element that is a record without an own
    field [__proto__], what the element itself reads under [name] when
    [name] is one of [names], and what every record inherits from the host
    under [name] when it is not ([undefined] unless [Object.prototype] has
    a property of that name): the projected record has the requested fields
    with the values of the element, and no other field of its own. *)
Theorem select_then_select_reads_element
    (names : list string) (name : string)
    (g : Gen) (w : World) (l : loc) (r : gmap string Value) (w' : World) (k : Gen) :
  next g w = SYield (VRef l) w' k ->
  heap w' !! l = Some r ->
  r !! "__proto__"%string = None ->
  exists (x : Value) (w'' : World),
    next (BuildSelectRule (FieldName name)
            (SrcGen (BuildSelectRule (FieldArray names) (SrcGen g)))) w =
    SYield x w''
      (BuildSelectRule (FieldName name)
         (SrcGen (BuildSelectRule (FieldArray names) (SrcGen k)))) /\
    (name ∈ names -> x = read_record r name) /\
    (name ∉ names -> x = inherited name) /\
    (name ∉ names -> host_defines name = false -> x = VUndefined).
Proof.
  intros Hnext Hl Hproto.
  destruct (select_fields_yield names g w l r w' k Hnext Hl)
    as (obj & o & Hstep & _ & _ & Hin & Hout).
  assert (Hmiss : name ∉ stored_names names -> read_record o name = inherited name).
  { intros Hname. unfold read_record. now rewrite (Hout name Hname). }
  exists (read_record o name), (mkWorld (<[obj := o]> (heap w')) (log w')).
  repeat split.
  - unfold BuildSelectRule. rewrite !for_of_gen, select_field_loop_step, Hstep.
    cbn [get_field heap]. now rewrite lookup_insert_eq.
  - intros Hname. destruct (decide (name = "__proto__"%string)) as [->|Hne].
    + rewrite Hmiss.
      * unfold read_record. now rewrite Hproto.
      * unfold stored_names. rewrite list_elem_of_filter. tauto.
    + unfold read_record at 1. rewrite (Hin name); [reflexivity|].
      unfold stored_names. rewrite list_elem_of_filter. tauto.
  - intros Hname. apply Hmiss. unfold stored_names.
    rewrite list_elem_of_filter. tauto.
  - intros Hname Hhost. rewrite Hmiss.
    + now apply inherited_undefined.
    + unfold stored_names. rewrite list_elem_of_filter. tauto.
Qed.

Lemma select_then_select_reads_element_witness :
  exists (x : Value) (w'' : World),
    next (BuildSelectRule (FieldName "b")
            (SrcGen (BuildSelectRule (FieldArray ["a"; "b"]%string)
                       (SrcGen (of_list [VRef 1%positive]))))) sample_world =
    SYield x w''
      (BuildSelectRule (FieldName "b")
         (SrcGen (BuildSelectRule (FieldArray ["a"; "b"]%string)
                    (SrcGen (of_list []))))) /\
    x = VNum 2.
Proof.
  destruct (select_then_select_reads_element ["a"; "b"]%string "b"
              (of_list [VRef 1%positive]) sample_world 1%positive
              {[ "a"%string := VNum 1; "b"%string := VNum 2 ]}
              sample_world (of_list []))
    as (x & w'' & Hstep & Hin & _).
  - reflexivity.
  - reflexivity.
  - reflexivity.
  - exists x, w''. split; [exact Hstep|]. rewrite Hin; [reflexivity|].
    apply elem_of_cons. right. apply elem_of_cons. now left.
Defined.

(** ** Terminal operations *)

Lemma where_loop_value_of_list (p : Value -> bool) (items : list Value) : forall i,
  where_loop (value_predicate p) i (of_list items) = of_list (List.filter p items).
Proof.
  induction items as [|v items IH]; intros i; apply gen_ext; intros w;
    rewrite where_loop_step; cbn [of_list next List.filter]; [reflexivity|].
  rewrite value_predicate_apply, IH. destruct (p v); reflexivity.
Qed.

Lemma iforeach_reporting_of_list (vals : list Value) : forall i w,
  iforeach_loop reporting i (of_list vals) w =
  (Ok tt,
   mkWorld (heap w) (log w ++ map (fun vi => EvCall (fst vi) (snd vi)) (indexed i vals))).
Proof.
  induction vals as [|v vals IH]; intros i w;
    rewrite iforeach_loop_step; cbn [of_list next indexed map fst snd].
  - rewrite app_nil_r. destruct w; reflexivity.
  - unfold reporting at 1. rewrite IH. cbn [heap emit log].
    rewrite <- app_assoc. reflexivity.
Qed.

(** X14. The index [iforeach] passes to its callback counts the values the
    pipeline has produced, from zero: behind a [where] stage it is the
    position of the value among the values kept, not its position in the
    source.  The callback is invoked once per produced value, in order. *)
Theorem iforeach_index_counts_produced_values
    (p : Value -> bool) (items : list Value) (w : World) :
  iforeach reporting (query_on [StWhere (value_predicate p)] (array_source items)) w =
  (Ok tt,
   mkWorld (heap w)
     (log w ++ map (fun vi => EvCall (fst vi) (snd vi))
                   (indexed 0 (List.filter p items)))).
Proof.
  unfold iforeach. rewrite query_on_array.
  cbn [map build_rule compile_rules fold_left]. unfold BuildWhereRule.
  now rewrite for_of_array, where_loop_value_of_list, iforeach_reporting_of_list.
Qed.

Lemma foreach_loop_iforeach_loop (fn : Value -> World -> Result unit * World)
    (g : Gen) : forall i w,
  foreach_loop fn g w = iforeach_loop (fun v _ => fn v) i g w.
Proof.
  induction g as [step IH] using Gen_induction. intros i w.
  rewrite foreach_loop_step, iforeach_loop_step. cbn [next]. specialize (IH w).
  destruct (step w) as [w'|e w'|v w' k]; cbn [step_all] in IH; try reflexivity.
  destruct (fn v w') as [[[]|e] w2]; [apply IH|reflexivity].
Qed.

Lemma iforeach_loop_prefix
    (f : Value -> Z -> gmap loc (gmap string Value) -> Result unit)
    (pre : list Value) : forall (i : Z) (tail : Gen) (w : World),
  (forall (j : nat) v, pre !! j = Some v ->
     f v (i + Z.of_nat j) (heap w) = Ok tt) ->
  iforeach_loop (observed f) i (yield_star (logged_source pre) tail) w =
  iforeach_loop (observed f) (i + Z.of_nat (length pre)) tail
    (mkWorld (heap w) (log w ++ interleaved i pre)).
Proof.
  induction pre as [|v pre IH]; intros i tail w H.
  - rewrite yield_star_nil. unfold interleaved. cbn [indexed flat_map length].
    rewrite app_nil_r, Z.add_0_r. destruct w; reflexivity.
  - pose proof (H 0%nat v eq_refl) as Hv. rewrite Z.add_0_r in Hv.
    rewrite iforeach_loop_step, yield_star_step. cbn [logged_source next].
    unfold observed at 1. change (heap (emit (EvProduce v) w)) with (heap w).
    rewrite Hv, IH.
    + cbn [heap emit log length]. unfold interleaved.
      cbn [indexed flat_map fst snd]. rewrite <- !app_assoc. cbn [app].
      replace (i + 1 + Z.of_nat (length pre)) with (i + Z.of_nat (S (length pre))) by lia.
      reflexivity.
    + intros j v' Hj. cbn [heap emit]. rewrite <- (H (S j) v' Hj). f_equal. lia.
Qed.

(** X15. [iforeach(fn)] pulls one value, invokes [fn] on it, and only then
    pulls the next one.  When the pipeline ends it returns normally, [fn]
    having been invoked on every value.  When [fn] throws on a value,
    [iforeach] throws that error at once: the effects of the earlier
    invocations remain and nothing more is pulled (the rest of the pipeline,
    [rest], is never resumed).  [foreach(fn)] is [iforeach] with a callback
    that ignores the index. *)
Theorem iforeach_stops_at_first_throw
    (f : Value -> Z -> gmap loc (gmap string Value) -> Result unit)
    (pre : list Value) (w : World) :
  (forall (j : nat) v, pre !! j = Some v -> f v (Z.of_nat j) (heap w) = Ok tt) ->
  (forall ex, exec_iterator ex = logged_source pre ->
     iforeach (observed f) ex w =
     (Ok tt, mkWorld (heap w) (log w ++ interleaved 0 pre))) /\
  (forall bad rest e ex,
     f bad (Z.of_nat (length pre)) (heap w) = Err e ->
     exec_iterator ex = yield_star (logged_source (pre ++ [bad])) rest ->
     iforeach (observed f) ex w =
     (Err e, mkWorld (heap w)
               (log w ++ interleaved 0 pre ++
                [EvProduce bad; EvCall bad (Z.of_nat (length pre))]))) /\
  (forall (fn : Value -> World -> Result unit * World) ex w0,
     foreach fn ex w0 = iforeach (fun v _ => fn v) ex w0).
Proof.
  intros Hpre.
  assert (Hpre' : forall (j : nat) v, pre !! j = Some v ->
            f v (0 + Z.of_nat j) (heap w) = Ok tt).
  { intros j v Hj. rewrite Z.add_0_l. eauto. }
  split; [|split].
  - intros ex Hex. unfold iforeach.
    rewrite Hex, <- (yield_star_finished (logged_source pre)).
    rewrite iforeach_loop_prefix by assumption. reflexivity.
  - intros bad rest e ex Hbad Hex. unfold iforeach.
    rewrite Hex, logged_source_app, iforeach_loop_prefix by assumption.
    rewrite iforeach_loop_step, yield_star_step. cbn [logged_source next].
    unfold observed at 1. cbn [heap emit]. rewrite Z.add_0_l, Hbad.
    unfold emit. cbn [heap log]. rewrite <- !app_assoc. reflexivity.
  - intros fn ex w0. apply foreach_loop_iforeach_loop.
Qed.

Lemma iforeach_stops_at_first_throw_witness :
  let f := fun (v : Value) (_ : Z) (_ : gmap loc (gmap string Value)) =>
             match v with
             | VNull => Err (Thrown (VStr "null"))
             | _ => Ok tt
             end in
  iforeach (observed f)
    (query_on [] (SrcGen (logged_source [VNum 1; VNull; VNum 3])))
    (mkWorld ∅ []) =
  (Err (Thrown (VStr "null")),
   mkWorld ∅ [EvProduce (VNum 1); EvCall (VNum 1) 0; EvProduce VNull; EvCall VNull 1]).
Proof.
  intros f.
  refine (proj1 (proj2 (iforeach_stops_at_first_throw f [VNum 1] (mkWorld ∅ []) _))
            VNull (logged_source [VNum 3]) (Thrown (VStr "null")) _ _ _).
  - intros [|j] v Hj; inversion Hj. reflexivity.
  - reflexivity.
  - reflexivity.
Defined.

(** X16. A query without stage hands its source through: collecting
    [query().on(source)] gives the elements of an array, the characters of a
    string, and whatever collecting a generator itself gives, effects and
    failures included. *)
Theorem query_without_stage_is_transparent :
  (forall (items : list Value) (w : World),
     collect (query_on [] (array_source items)) w = (Ok items, w)) /\
  (forall (s : string) (w : World),
     collect (query_on [] (SrcValue (VStr s))) w = (Ok (chars s), w)) /\
  (forall (g : Gen) (w : World),
     collect (query_on [] (SrcGen g)) w = array_from g w).
Proof.
  unfold collect. repeat split.
  - intros items w. rewrite query_on_array. cbn [map compile_rules].
    rewrite identity_rule_iterate.
    rewrite (iterate_iterable (array_source items) (of_list items) eq_refl).
    apply array_from_of_list.
  - intros s w. rewrite query_on_iterator. cbn [map compile_rules].
    rewrite identity_rule_iterate.
    change (iterable (query_on [] (SrcValue (VStr s)))) with (SrcValue (VStr s)).
    rewrite (iterate_iterable (SrcValue (VStr s)) (of_list (chars s)) eq_refl).
    apply array_from_of_list.
  - intros g w. rewrite query_on_gen. cbn [map compile_rules].
    now rewrite identity_rule_iterate, iterate_gen.
Qed.

Lemma acollect_loop_default (g : Gen) : forall i acc w,
  acollect_loop (fun x _ w0 => (Ok (Plain x), w0)) i acc g w =
  match array_from g w with
  | (Ok vals, w') => (Ok (acc ++ map Plain vals), w')
  | (Err e, w') => (Err e, w')
  end.
Proof.
  induction g as [step IH] using Gen_induction. intros i acc w.
  rewrite acollect_loop_step, array_from_step. cbn [next]. specialize (IH w).
  destruct (step w) as [w'|e w'|v w' k]; cbn [step_all] in IH.
  - cbn [map]. now rewrite app_nil_r.
  - reflexivity.
  - rewrite IH. destruct (array_from k w') as [[vals|e] w2]; [|reflexivity].
    cbn [map]. now rewrite <- app_assoc.
Qed.

(** X17. [acollect()] without callback does what [collect()] does and
    wraps the result: it runs the pipeline as [collect] does, fails where
    [collect] fails with the same error and the same world, and otherwise
    hands to [Promise.all] exactly the collected values, in their order,
    none of them wrapped in a promise. *)
Theorem acollect_without_callback_is_collect (ex : QueryExecutor) (w : World) :
  acollect None ex w =
  match collect ex w with
  | (Ok vals, w') => (Ok (Promise_all (map Plain vals)), w')
  | (Err e, w') => (Err e, w')
  end.
Proof.
  unfold acollect, collect. cbn [default from_option id].
  rewrite acollect_loop_default.
  destruct (array_from (exec_iterator ex) w) as [[vals|e] w']; reflexivity.
Qed.

(** ** Builders: cloning, packing, sharing *)

Lemma new_builder_spec (rules : list QueryRule) (s : Store) :
  let s1 := snd (new_array rules s) in
  let q := fst (new_Query (fst (new_array rules s)) s1) in
  let s2 := snd (new_Query (fst (new_array rules s)) s1) in
  rules_of s2 q = rules /\
  is_query s2 q /\
  forall q', is_query s q' -> separate s2 q q' /\ rules_of s2 q' = rules_of s q'.
Proof.
  unfold new_array, new_Query. cbn [fst snd arrays queries].
  pose proof (is_fresh (dom (arrays s))) as Fa.
  pose proof (is_fresh (dom (queries s))) as Fq.
  set (a := fresh (dom (arrays s))) in *. set (q := fresh (dom (queries s))) in *.
  clearbody a q. split; [|split].
  - unfold rules_of. cbn [arrays queries]. now rewrite !lookup_insert_eq.
  - exists a. cbn [arrays queries]. rewrite !lookup_insert_eq. eauto.
  - intros q' (a' & Hq' & Ha').
    assert (Hq : q <> q').
    { intros E. apply Fq. rewrite E. eapply elem_of_dom_2, Hq'. }
    assert (Ha : a <> a').
    { intros E. apply Fa. rewrite E. now apply elem_of_dom. }
    split.
    + exists a, a'. cbn [arrays queries].
      rewrite lookup_insert_eq, lookup_insert_ne, lookup_insert_eq, lookup_insert_ne
        by assumption.
      repeat split; eauto.
    + unfold rules_of. cbn [arrays queries].
      rewrite lookup_insert_ne, Hq', lookup_insert_ne by assumption. reflexivity.
Qed.

Lemma compile_rules_snapshot (R M : list QueryRule) :
  Forall iterates_input M ->
  compile_rules (compile_rules R :: M) = compile_rules (R ++ M).
Proof.
  intros H. apply functional_extensionality. intros it.
  rewrite !compile_rules_pipeline, pipeline_app.
  change (pipeline (compile_rules R :: M) it)
    with (pipeline M (SrcGen (compile_rules R it))).
  rewrite compile_rules_pipeline. now apply pipeline_iterate.
Qed.

Lemma add_stages_is_query (sts : list Stage) : forall q q' s,
  is_query s q' -> is_query (snd (add_stages q sts s)) q'.
Proof.
  induction sts as [|st sts IH]; intros q q' s H; [exact H|].
  cbn [add_stages]. rewrite add_stage_pushrule.
  pose proof (pushrule_is_query q q' (build_rule st) s H) as H'.
  destruct (_pushrule q (build_rule st) s) as [q0 s']. now apply IH.
Qed.

(** X18. [QueryExecutor.extend()] starts a builder from the executor's
    pipeline: with the stages chained on it afterwards, it runs on a source
    as those stages run on the output of the executor's pipeline over that
    source. *)
Theorem executor_extend_continues_pipeline
    (e : QueryExecutor) (s : Store) (sts : list Stage) (S : Source) :
  let b := fst (exec_extend e s) in
  let s2 := snd (add_stages b sts (snd (exec_extend e s))) in
  fst (add_stages b sts (snd (exec_extend e s))) = b /\
  exec_iterator (on b (Some S) s2) =
  exec_iterator
    (query_on sts (SrcGen (exec_iterator (new_QueryExecutor (query e) (Some S))))).
Proof.
  intros b s2. split; [apply add_stages_fst|].
  destruct (new_builder_spec [query e] s) as (Hrules & Hq & _).
  fold (exec_extend e s) in Hrules, Hq.
  change (fst (new_Query (fst (new_array [query e] s)) (snd (new_array [query e] s))))
    with b in Hrules, Hq.
  change (snd (new_Query (fst (new_array [query e] s)) (snd (new_array [query e] s))))
    with (snd (exec_extend e s)) in Hrules, Hq.
  rewrite query_on_gen, !exec_iterator_query.
  unfold on, compile, s2. rewrite add_stages_rules_same, Hrules by assumption.
  change ([query e] ++ map build_rule sts)
    with ((query e :: nil) ++ map build_rule sts).
  destruct S as [v|g]; [destruct v|]; cbn [new_QueryExecutor query iterable];
    rewrite compile_rules_app by apply Forall_build_rule_iterates; reflexivity.
Qed.

(** X19. [extend()] clones the behaviour: chaining stages on the builder it
    returns gives the pipeline that chaining the same stages on the original
    builder would give, and leaves the original builder's stages as they
    were. *)
Theorem extend_then_chain_is_chain (s : Store) (a : loc) (sts : list Stage) :
  is_query s a ->
  let b := fst (extend a s) in
  let s2 := snd (add_stages b sts (snd (extend a s))) in
  compile b s2 = compile a (snd (add_stages a sts s)) /\
  rules_of s2 a = rules_of s a.
Proof.
  intros Ha b s2. destruct (extend_spec a s Ha) as (Hsep & Hb & Hsame).
  fold b in Hsep, Hb. apply separate_sym in Hsep.
  split.
  - unfold compile, s2.
    rewrite !add_stages_rules_same, Hb by eauto using separate_is_query.
    apply (compile_rules_snapshot (rules_of s a) (map build_rule sts)),
      Forall_build_rule_iterates.
  - unfold s2. now rewrite add_stages_rules_other, Hsame.
Qed.

Lemma extend_then_chain_is_chain_witness :
  let s := snd (builder [StSkip 1] empty_store) in
  let a := fst (builder [StSkip 1] empty_store) in
  let b := fst (extend a s) in
  compile b (snd (add_stages b [StTake 2] (snd (extend a s)))) =
  compile a (snd (add_stages a [StTake 2] s)).
Proof.
  intros s a b.
  exact (proj1 (extend_then_chain_is_chain s a [StTake 2]
                  (builder_is_query [StSkip 1] empty_store))).
Defined.

Lemma pack_is_query (q : loc) (s : Store) :
  is_query s q -> is_query (snd (pack q s)) q.
Proof.
  intros H. unfold pack. destruct (0 <? _); [|exact H].
  unfold new_array. cbn [fst snd arrays queries]. eexists.
  cbn [arrays queries]. rewrite lookup_insert_eq. split; [reflexivity|].
  rewrite lookup_insert_eq. eauto.
Qed.

(** X20. [pack()] does not change what is built afterwards: stages chained
    on a packed builder give the pipeline they would have given without the
    packing.  The stage lists of the other builders are untouched. *)
Theorem pack_then_chain_is_chain (s : Store) (q : loc) (sts : list Stage) :
  is_query s q ->
  compile q (snd (add_stages q sts (snd (pack q s)))) =
  compile q (snd (add_stages q sts s)) /\
  (forall q', q' <> q -> is_query s q' ->
     rules_of (snd (pack q s)) q' = rules_of s q').
Proof.
  intros Hq. split.
  - unfold compile.
    rewrite !add_stages_rules_same, pack_rules by auto using pack_is_query.
    destruct (rules_of s q) as [|r rs] eqn:E; [reflexivity|].
    change ([compile q s] ++ map build_rule sts)
      with (compile q s :: map build_rule sts).
    unfold compile. rewrite E.
    apply (compile_rules_snapshot (r :: rs) (map build_rule sts)),
      Forall_build_rule_iterates.
  - intros q' Hne (a' & Hq' & Ha'). unfold pack.
    destruct (0 <? _); [|reflexivity].
    unfold new_array, rules_of. cbn [fst snd arrays queries].
    rewrite lookup_insert_ne, Hq' by congruence.
    rewrite lookup_insert_ne; [reflexivity|].
    intros E. apply (is_fresh (dom (arrays s))). rewrite E. now apply elem_of_dom.
Qed.

Lemma pack_then_chain_is_chain_witness :
  let s := snd (builder [StSkip 1; StTake 3] empty_store) in
  let q := fst (builder [StSkip 1; StTake 3] empty_store) in
  compile q (snd (add_stages q [StTake 2] (snd (pack q s)))) =
  compile q (snd (add_stages q [StTake 2] s)).
Proof.
  intros s q.
  exact (proj1 (pack_then_chain_is_chain s q [StTake 2]
                  (builder_is_query [StSkip 1; StTake 3] empty_store))).
Defined.

Lemma pushrule_rules_shared (q q' a : loc) (rule : QueryRule) (s : Store) :
  queries s !! q = Some a -> queries s !! q' = Some a -> is_Some (arrays s !! a) ->
  rules_of (snd (_pushrule q rule s)) q' = rules_of s q' ++ [rule] /\
  queries (snd (_pushrule q rule s)) = queries s /\
  is_Some (arrays (snd (_pushrule q rule s)) !! a).
Proof.
  intros Hq Hq' [rs Ha]. unfold _pushrule, rules_of. rewrite Hq. cbn [snd arrays queries].
  rewrite Hq', lookup_alter_eq, Ha. cbn. eauto.
Qed.

Lemma add_stages_rules_shared (sts : list Stage) : forall (q q' a : loc) (s : Store),
  queries s !! q = Some a -> queries s !! q' = Some a -> is_Some (arrays s !! a) ->
  rules_of (snd (add_stages q sts s)) q' = rules_of s q' ++ map build_rule sts.
Proof.
  induction sts as [|st sts IH]; intros q q' a s Hq Hq' Ha; cbn [add_stages map].
  - now rewrite app_nil_r.
  - rewrite add_stage_pushrule.
    destruct (pushrule_rules_shared q q' a (build_rule st) s Hq Hq' Ha)
      as (Hrules & Hqs & Ha').
    pose proof (pushrule_fst q (build_rule st) s) as Hfst.
    destruct (_pushrule q (build_rule st) s) as [q0 s']. cbn [fst snd] in *. subst q0.
    rewrite (IH q q' a s') by (rewrite ?Hqs; assumption).
    now rewrite Hrules, <- app_assoc.
Qed.

(** X21. Why [extend()] exists.  Two builders made with [new Query(rules)]
    over one and the same array are different objects that share their
    stages: every stage chained on the first is a stage of the second. *)
Theorem builders_over_one_array_share_stages
    (s : Store) (rules : list QueryRule) (sts : list Stage) :
  let a := fst (new_array rules s) in
  let s1 := snd (new_array rules s) in
  let q1 := fst (new_Query a s1) in
  let s2 := snd (new_Query a s1) in
  let q2 := fst (new_Query a s2) in
  let s3 := snd (new_Query a s2) in
  q1 <> q2 /\
  rules_of s3 q1 = rules /\
  rules_of s3 q2 = rules /\
  rules_of (snd (add_stages q1 sts s3)) q2 = rules ++ map build_rule sts.
Proof.
  intros a s1 q1 s2 q2 s3.
  assert (Hne : q2 <> q1).
  { unfold q2, new_Query. cbn [fst]. intros E.
    apply (is_fresh (dom (queries s2))). rewrite E.
    unfold s2, new_Query. cbn [snd queries]. rewrite dom_insert_L. set_solver. }
  assert (H1 : queries s3 !! q1 = Some a).
  { unfold s3, new_Query. cbn [snd queries]. fold q2.
    rewrite lookup_insert_ne by assumption.
    unfold s2, new_Query. cbn [snd queries]. apply lookup_insert_eq. }
  assert (H2 : queries s3 !! q2 = Some a).
  { unfold s3, new_Query. cbn [snd queries]. apply lookup_insert_eq. }
  assert (Ha : arrays s3 !! a = Some rules).
  { unfold s3, s2, new_Query. cbn [snd arrays].
    unfold s1, a, new_array. cbn [fst snd arrays]. apply lookup_insert_eq. }
  assert (R1 : rules_of s3 q1 = rules) by (unfold rules_of; now rewrite H1, Ha).
  assert (R2 : rules_of s3 q2 = rules) by (unfold rules_of; now rewrite H2, Ha).
  repeat split; try assumption.
  - congruence.
  - rewrite (add_stages_rules_shared sts q1 q2 a s3) by eauto. now rewrite R2.
Qed.

(** X22. [query()] makes a builder of its own: chaining stages on it
    returns that same builder, gives it exactly these stages in call order,
    and changes the stages of no builder that existed before. *)
Theorem query_builder_is_independent (s0 : Store) (sts : list Stage) (q' : loc) :
  is_query s0 q' ->
  let q := fst (new_query s0) in
  let s := snd (add_stages q sts (snd (new_query s0))) in
  fst (add_stages q sts (snd (new_query s0))) = q /\
  q <> q' /\
  rules_of s q = map build_rule sts /\
  rules_of s q' = rules_of s0 q'.
Proof.
  intros Hq' q s.
  destruct (new_builder_spec [] s0) as (Hrules & Hq & Hother).
  destruct (Hother q' Hq') as [Hsep Hsame].
  change (fst (new_Query (fst (new_array [] s0)) (snd (new_array [] s0))))
    with q in Hrules, Hq, Hsep.
  change (snd (new_Query (fst (new_array [] s0)) (snd (new_array [] s0))))
    with (snd (new_query s0)) in Hrules, Hq, Hsep, Hsame.
  repeat split.
  - apply add_stages_fst.
  - destruct Hsep as (a1 & a2 & H1 & H2 & Hne & _). intros E. rewrite E in H1.
    congruence.
  - unfold s. now rewrite add_stages_rules_same, Hrules.
  - unfold s. now rewrite add_stages_rules_other, Hsame.
Qed.

Lemma query_builder_is_independent_witness :
  let s0 := snd (builder [StTake 1] empty_store) in
  let q' := fst (builder [StTake 1] empty_store) in
  let q := fst (new_query s0) in
  rules_of (snd (add_stages q [StSkip 2; StFlat None] (snd (new_query s0)))) q' =
  rules_of s0 q'.
Proof.
  intros s0 q' q.
  exact (proj2 (proj2 (proj2 (query_builder_is_independent s0 [StSkip 2; StFlat None] q'
                  (builder_is_query [StTake 1] empty_store))))).
Defined.

(** ** take over a source that fails *)

Lemma take_loop_failing_source (n : Z) (e : Error) (pre : list Value) : forall taken w,
  drain (take_loop n taken (yield_star (of_list pre) (fails_with e))) w =
  if (Z.to_nat (n - taken) <? length pre)%nat
  then (firstn (Z.to_nat (n - taken)) pre, (Ok tt, w))
  else (pre, (Err e, w)).
Proof.
  induction pre as [|v pre IH]; intros taken w;
    rewrite drain_step, take_loop_step, yield_star_step; cbn [of_list next length].
  - reflexivity.
  - destruct (Z.leb_spec n taken) as [Hle|Hlt].
    + replace (Z.to_nat (n - taken)) with 0%nat by lia. reflexivity.
    + replace (Z.to_nat (n - taken)) with (S (Z.to_nat (n - (taken + 1)))) by lia.
      rewrite IH. change (S (Z.to_nat (n - (taken + 1))) <? S (length pre))%nat
        with (Z.to_nat (n - (taken + 1)) <? length pre)%nat.
      destruct (Z.to_nat (n - (taken + 1)) <? length pre)%nat; reflexivity.
Qed.

(** X23. [take(n)] over a source that yields some values and then fails.
    When the source has more than [n] values before its failure, [take(n)]
    yields the first [n] and ends normally: the failure is never reached.
    When the source fails right after its [n]-th value, or earlier, the
    failure comes out of [take(n)], even though [n] values may have been
    yielded already: the stage pulls once more before it stops. *)
Theorem take_over_failing_source (n : Z) (e : Error) (pre : list Value) (w : World) :
  drain (BuildTakeRule n (SrcGen (yield_star (of_list pre) (fails_with e)))) w =
  if (Z.to_nat n <? length pre)%nat
  then (firstn (Z.to_nat n) pre, (Ok tt, w))
  else (pre, (Err e, w)).
Proof.
  unfold BuildTakeRule. now rewrite for_of_gen, take_loop_failing_source, Z.sub_0_r.
Qed.
